(** * OpenMPOpt: merging and hoisting of [omp.parallel] regions

    A shallow embedding of [lib/polygeist/Passes/OpenMPOpt.cpp]: the
    classifier [isReadOnly], the three rewrite patterns [CombineParallel],
    [ParallelForInterchange] and [ParallelIfInterchange], and
    [OpenMPOpt::runOnOperation].

    The pass works on MLIR's region tree.  An operation owns a list of
    regions, a region is a list of blocks, a block is a list of block
    arguments followed by a list of operations.  An [Operation*] of the C++
    code is modelled by a cursor into that tree (the operation together with
    everything around it), so that [getBlock], [getPrevNode], [getParentOp]
    and the like are read off the cursor.  SSA values are numbered; the users
    of a value are the operations that list it among their operands.

    The patterns return [option (LogicalResult * Operation)]: the result of
    [matchAndRewrite] and the tree afterwards, or [None] where the C++
    dereferences a null pointer or the end of an empty list, or fails an
    assertion of the rewriter.

    What the code takes from MLIR is modelled as MLIR documents it:
    - [a->isAncestor(b)] holds for [a == b] too (line 83 depends on it: the
      matched region is not "another parallel");
    - [getBody()] of [scf.for] and [scf.if] is the first block of region 0,
      for [scf.if] the then block;
    - [splitBlock(b, it)] moves the operations from [it] on, terminator
      included, to a new block behind [b]; [mergeBlockBefore(src, op)] and
      [mergeBlocks(src, dest)] splice all operations of [src] in front of [op]
      or at the end of [dest], and [src] must have no arguments;
    - [clone] gives the copy new results; [replaceOp(op, values)] redirects
      every use of the results of [op] and erases it; [eraseOp] asserts that
      the operation has no uses;
    - [block.getTerminator()] is the last operation of the block. *)

From Stdlib Require Import String List Arith Bool Lia.
Import ListNotations.
Open Scope list_scope.

Set Implicit Arguments.
Set Warnings "-register-all".

(** ** The IR *)

Definition Value := nat.

(** [MemoryEffects::Effect]: the four kinds of the side-effect interface. *)
Inductive Effect : Type := Read | Write | Allocate | Free.

(** The operation kinds the pass distinguishes with [dyn_cast]/[isa]; every
    other operation is [other] with its name. *)
Inductive OpName : Type :=
| omp_parallel | omp_barrier | omp_terminator
| scf_for | scf_if | scf_yield
| func_func
| other (n : string).

Record Block (A : Type) : Type := mkBlock {
  args : list Value;
  ops : list A
}.
Arguments mkBlock {A} _ _.
Arguments args {A} _.
Arguments ops {A} _.

(** [memoryEffects = None]: the operation does not implement
    [MemoryEffectOpInterface]; [Some es]: it does, and [getEffects] yields
    [es]. *)
Inductive Operation : Type := mkOp {
  name : OpName;
  hasRecursiveSideEffects : bool;
  memoryEffects : option (list Effect);
  operands : list Value;
  results : list Value;
  regions : list (list (Block Operation))
}.

Definition Region := list (Block Operation).

(** Induction over the region tree. *)
Section OperationInd.
Variable P : Operation -> Prop.
Hypothesis step : forall n r e os rs regs,
  Forall (Forall (fun b => Forall P (ops b))) regs ->
  P (mkOp n r e os rs regs).

Fixpoint Operation_nested_ind (o : Operation) : P o :=
  match o with
  | mkOp n r e os rs regs =>
    step n r e os rs
      ((fix goR (l : list Region) : Forall (Forall (fun b => Forall P (ops b))) l :=
          match l with
          | [] => Forall_nil _
          | reg :: l' =>
            Forall_cons reg
              ((fix goB (bs : Region) : Forall (fun b => Forall P (ops b)) bs :=
                  match bs with
                  | [] => Forall_nil _
                  | b :: bs' =>
                    Forall_cons b
                      ((fix goO (xs : list Operation) : Forall P xs :=
                          match xs with
                          | [] => Forall_nil _
                          | x :: xs' => Forall_cons x (Operation_nested_ind x) (goO xs')
                          end) (ops b))
                      (goB bs')
                  end) reg)
              (goR l')
          end) regs)
  end.
End OperationInd.

Definition isParallel (o : Operation) : bool :=
  match name o with omp_parallel => true | _ => false end.

Definition isRead (e : Effect) : bool :=
  match e with Read => true | _ => false end.

(** ** The side-effect classifier *)

(** [isReadOnly], lines 41-68.  The nested operations are looked at only
    under [HasRecursiveSideEffects]; then the operation's own interface
    decides, and an operation without the interface is not read-only. *)
Fixpoint isReadOnly (op : Operation) : bool :=
  if hasRecursiveSideEffects op
     && negb (forallb (fun region : Region =>
                forallb (fun block => forallb isReadOnly (ops block)) region)
              (regions op))
  then false
  else match memoryEffects op with
       | Some effects => forallb isRead effects
       | None => false
       end.

(** ** Positions in the tree *)

(** One step down: region [r], block [b] of that region, operation [i] of
    that block.  A path leads from an operation to one nested in it; the
    empty path is the operation itself. *)
Definition OpPath := list (nat * nat * nat).

Section Indexed.
Variables A B : Type.
Variable f : nat -> A -> list B.
Fixpoint iflat (n : nat) (l : list A) : list B :=
  match l with
  | [] => []
  | x :: l' => f n x ++ iflat (S n) l'
  end.
End Indexed.

(** [Operation::walk]: the operation and everything nested in it, each with
    its position. *)
Fixpoint walk (o : Operation) : list (OpPath * Operation) :=
  ([], o) ::
  iflat (fun r (region : Region) =>
    iflat (fun b block =>
      iflat (fun i child =>
        map (fun po : OpPath * Operation => ((r, b, i) :: fst po, snd po))
            (walk child))
        0 (ops block))
      0 region)
    0 (regions o).

Fixpoint isPrefix (p q : OpPath) : bool :=
  match p, q with
  | [], _ => true
  | (r, b, i) :: p', (r', b', i') :: q' =>
    Nat.eqb r r' && Nat.eqb b b' && Nat.eqb i i' && isPrefix p' q'
  | _ :: _, [] => false
  end.

(** [a->isAncestor(b)] on positions.  MLIR: "an operation is considered as
    its own ancestor" ([this == other || isProperAncestor(other)]). *)
Definition isAncestor (a b : OpPath) : bool := isPrefix a b.

Definition usesValue (v : Value) (o : Operation) : bool :=
  existsb (Nat.eqb v) (operands o).

(** [v.getUsers()]: the positions of the operations below [root] that have
    [v] among their operands. *)
Definition getUsers (root : Operation) (v : Value) : list OpPath :=
  map fst (filter (fun po : OpPath * Operation => usesValue v (snd po)) (walk root)).

(** ** Cursors: an operation together with its surroundings *)

(** One level of nesting seen from inside: the block the hole is in
    ([l_args], the operations before the hole with the nearest first, the
    operations after it), and the operation that owns this block (its own
    fields, and its other blocks and regions). *)
Record Layer : Type := mkLayer {
  l_args : list Value;
  l_lefts : list Operation;
  l_rights : list Operation;
  l_name : OpName;
  l_rec : bool;
  l_eff : option (list Effect);
  l_operands : list Value;
  l_results : list Value;
  l_regsL : list Region;
  l_blksL : list (Block Operation);
  l_blksR : list (Block Operation);
  l_regsR : list Region
}.

(** [focus] is the operation pointed at; [layers] lists its enclosing
    operations from the innermost to the root.  [getBlock()] is the block of
    the first layer, [getPrevNode()] the head of its [l_lefts],
    [getParentOp()] its owner. *)
Record Cursor : Type := mkCursor {
  focus : Operation;
  layers : list Layer
}.

(** The owner of a layer with [mid] put between the two halves of the
    block. *)
Definition fillLayerWith (l : Layer) (mid : list Operation) : Operation :=
  mkOp (l_name l) (l_rec l) (l_eff l) (l_operands l) (l_results l)
       (l_regsL l
        ++ (l_blksL l
            ++ mkBlock (l_args l) (rev (l_lefts l) ++ mid ++ l_rights l)
            :: l_blksR l)
        :: l_regsR l).

Definition fillLayer (l : Layer) (o : Operation) : Operation :=
  fillLayerWith l [o].

Definition plugAbove (ls : list Layer) (o : Operation) : Operation :=
  fold_left (fun acc l => fillLayer l acc) ls o.

(** The whole tree the cursor points into. *)
Definition plug (c : Cursor) : Operation := plugAbove (layers c) (focus c).

Definition stepOf (l : Layer) : nat * nat * nat :=
  (length (l_regsL l), length (l_blksL l), length (l_lefts l)).

(** The position of the focus below the root. *)
Definition cursorPath (c : Cursor) : OpPath := rev (map stepOf (layers c)).

Fixpoint splitAt (A : Type) (n : nat) (l : list A) : option (list A * A * list A) :=
  match n, l with
  | _, [] => None
  | 0, x :: l' => Some ([], x, l')
  | S n', x :: l' =>
    match splitAt n' l' with
    | Some (before, y, after) => Some (x :: before, y, after)
    | None => None
    end
  end.

(** Move the cursor to operation [i] of block [b] of region [r] of the
    focus. *)
Definition down (r b i : nat) (c : Cursor) : option Cursor :=
  let o := focus c in
  match splitAt r (regions o) with
  | None => None
  | Some (regsL, region, regsR) =>
    match splitAt b region with
    | None => None
    | Some (blksL, block, blksR) =>
      match splitAt i (ops block) with
      | None => None
      | Some (before, child, after) =>
        Some (mkCursor child
                (mkLayer (args block) (rev before) after
                         (name o) (hasRecursiveSideEffects o) (memoryEffects o)
                         (operands o) (results o)
                         regsL blksL blksR regsR
                 :: layers c))
      end
    end
  end.

Fixpoint focusFrom (p : OpPath) (c : Cursor) : option Cursor :=
  match p with
  | [] => Some c
  | (r, b, i) :: p' =>
    match down r b i c with
    | Some c' => focusFrom p' c'
    | None => None
    end
  end.

(** The cursor for the operation at position [p] of [root]. *)
Definition focusAt (root : Operation) (p : OpPath) : option Cursor :=
  focusFrom p (mkCursor root []).

(** [getParentOfType<FuncOp>()]: the nearest enclosing [func.func], with the
    position of the starting operation below it. *)
Fixpoint parentFuncFrom (o : Operation) (rel : OpPath) (ls : list Layer)
  : option (Operation * OpPath) :=
  match ls with
  | [] => None
  | l :: ls' =>
    let o' := fillLayer l o in
    let rel' := stepOf l :: rel in
    match l_name l with
    | func_func => Some (o', rel')
    | _ => parentFuncFrom o' rel' ls'
    end
  end.

Definition getParentOfTypeFunc (c : Cursor) : option (Operation * OpPath) :=
  parentFuncFrom (focus c) [] (layers c).

(** ** Values: cloning and replacing uses *)

Definition blockValues (f : Operation -> list Value) (b : Block Operation) : list Value :=
  args b ++ flat_map f (ops b).

(** Every value that occurs below an operation. *)
Fixpoint valuesOf (o : Operation) : list Value :=
  operands o ++ results o
  ++ flat_map (fun region : Region => flat_map (blockValues valuesOf) region) (regions o).

(** The values defined by an operation and by what is nested in it. *)
Fixpoint definedBy (o : Operation) : list Value :=
  results o
  ++ flat_map (fun region : Region => flat_map (blockValues definedBy) region) (regions o).

(** A number above every value of the tree; [n + v] is then unused. *)
Definition freshBase (root : Operation) : nat := S (list_max (valuesOf root)).

(** Rename definitions with [fd] and uses with [fu], everywhere below. *)
Fixpoint mapValues (fd fu : Value -> Value) (o : Operation) : Operation :=
  mkOp (name o) (hasRecursiveSideEffects o) (memoryEffects o)
       (map fu (operands o)) (map fd (results o))
       (map (fun region : Region =>
               map (fun b => mkBlock (map fd (args b)) (map (mapValues fd fu) (ops b)))
                   region)
            (regions o)).

Definition memValue (v : Value) (l : list Value) : bool := existsb (Nat.eqb v) l.

(** [rewriter.clone(op)]: a copy whose results, and the values defined
    inside it, are new ([n + v]); uses of those values inside the copy follow
    the mapping, other operands are kept. *)
Definition clone (n : nat) (op : Operation) : Operation :=
  let defs := definedBy op in
  mapValues (fun v => n + v) (fun v => if memValue v defs then n + v else v) op.

(** [replaceAllUsesWith] for the results [olds] of an operation and the
    results [n + v] of its clone. *)
Definition replaceUses (olds : list Value) (n : nat) (v : Value) : Value :=
  if memValue v olds then n + v else v.

Definition mapBlock (f : Operation -> Operation) (b : Block Operation) : Block Operation :=
  mkBlock (args b) (map f (ops b)).

Definition mapLayerUses (fu : Value -> Value) (l : Layer) : Layer :=
  let f := mapValues (fun v => v) fu in
  mkLayer (l_args l) (map f (l_lefts l)) (map f (l_rights l))
          (l_name l) (l_rec l) (l_eff l) (map fu (l_operands l)) (l_results l)
          (map (map (mapBlock f)) (l_regsL l))
          (map (mapBlock f) (l_blksL l)) (map (mapBlock f) (l_blksR l))
          (map (map (mapBlock f)) (l_regsR l)).

(** Replace uses in the whole tree around and below the focus. *)
Definition mapCursorUses (fu : Value -> Value) (c : Cursor) : Cursor :=
  mkCursor (mapValues (fun v => v) fu (focus c)) (map (mapLayerUses fu) (layers c)).

(** ** Rewriter primitives *)

Definition LogicalResult := bool.
Definition success : LogicalResult := true.
Definition failure : LogicalResult := false.

Definition withRegions (o : Operation) (rs : list Region) : Operation :=
  mkOp (name o) (hasRecursiveSideEffects o) (memoryEffects o)
       (operands o) (results o) rs.

(** [op.getRegion().front()] (and [getBody()] of [scf.for]/[scf.if], which
    is [getRegion(0).front()]); [None] where the C++ dereferences the end of
    an empty list. *)
Definition frontBlock (o : Operation) : option (Block Operation) :=
  match regions o with
  | (b :: _) :: _ => Some b
  | _ => None
  end.

Definition setFrontBlock (o : Operation) (b' : Block Operation) : Operation :=
  match regions o with
  | (_ :: bs) :: rs => withRegions o ((b' :: bs) :: rs)
  | _ => o
  end.

Fixpoint lastOp (l : list Operation) : option Operation :=
  match l with
  | [] => None
  | [x] => Some x
  | _ :: l' => lastOp l'
  end.

(** [block.getTerminator()]: the last operation of the block. *)
Definition getTerminator (b : Block Operation) : option Operation := lastOp (ops b).

Definition setLefts (l : Layer) (ls : list Operation) : Layer :=
  mkLayer (l_args l) ls (l_rights l) (l_name l) (l_rec l) (l_eff l)
          (l_operands l) (l_results l)
          (l_regsL l) (l_blksL l) (l_blksR l) (l_regsR l).

Definition isNil (A : Type) (l : list A) : bool :=
  match l with [] => true | _ => false end.

(** [op->use_empty()], which [eraseOp] asserts. *)
Definition useEmpty (root : Operation) (o : Operation) : bool :=
  forallb (fun v => isNil (getUsers root v)) (results o).

(** [rewriter.create<omp::BarrierOp>]: no operands, no results, no regions,
    no effect interface. *)
Definition barrierOp : Operation := mkOp omp_barrier false None [] [] [].

(** Insert [x] in front of the last operation of the block. *)
Definition insertBeforeTerminator (x : Operation) (b : Block Operation) : Block Operation :=
  match lastOp (ops b) with
  | Some t => mkBlock (args b) (removelast (ops b) ++ [x; t])
  | None => b
  end.

Fixpoint eraseAt (A : Type) (n : nat) (l : list A) : list A :=
  match n, l with
  | _, [] => []
  | 0, _ :: l' => l'
  | S n', x :: l' => x :: eraseAt n' l'
  end.

(** ** CombineParallel *)

(** The test of lines 100-105 for the operation [prevOp] in front of the
    parallel region under the cursor: it only reads, and every user of every
    result has the parallel region as an ancestor. *)
Definition onlyReadsAndUsedInside (c : Cursor) (prevOp : Operation) : bool :=
  isReadOnly prevOp
  && forallb (fun v =>
       forallb (fun user => isAncestor (cursorPath c) user) (getUsers (plug c) v))
     (results prevOp).

(** Lines 120-126: [prevParallel] is the head of the operations in front of
    [nextParallel], [before] the ones in front of it. *)
Definition mergeParallels (c : Cursor) (l : Layer) (above : list Layer)
    (prevParallel : Operation) (before : list Operation)
  : option (LogicalResult * Operation) :=
  let nextParallel := focus c in
  match frontBlock prevParallel, frontBlock nextParallel with
  | Some pfront, Some nfront =>
    match getTerminator pfront with
    | None => None
    | Some term =>
      (* replaceOpWithNewOp<omp::BarrierOp>(terminator): the barrier is
         created at the end of the block, the terminator (which must have as
         many results as the barrier, none) is erased *)
      if negb (isNil (results term)) then None else
      let pfront1 := mkBlock (args pfront) (removelast (ops pfront) ++ [barrierOp]) in
      (* mergeBlocks(source, dest): the source has no arguments to replace *)
      if negb (isNil (args nfront)) then None else
      let pfront2 := mkBlock (args pfront1) (ops pfront1 ++ ops nfront) in
      let prev' := setFrontBlock prevParallel pfront2 in
      let next' := withRegions nextParallel
                     (match regions nextParallel with
                      | (_ :: bs) :: rs => bs :: rs
                      | rs => rs
                      end) in
      (* eraseOp(nextParallel) *)
      let l' := setLefts l (prev' :: before) in
      if negb (useEmpty (plug (mkCursor next' (l' :: above))) next') then None else
      Some (success, plugAbove above (fillLayerWith l' []))
    end
  | _, _ => None
  end.

(** Lines 106-111 for [prevOp], the operation just in front of the parallel
    region under the cursor: a clone goes to the start of the region's first
    block, the uses of [prevOp]'s results are redirected to the clone's, and
    [prevOp] is erased.  The cursor stays on the parallel region. *)
Definition relocate (c : Cursor) : option Cursor :=
  match layers c with
  | [] => None
  | l :: above =>
    match l_lefts l with
    | [] => None
    | prevOp :: _ =>
      match frontBlock (focus c) with
      | None => None
      | Some front =>
        (* setInsertionPointToStart(front); clone of prevOp *)
        let n := freshBase (plug c) in
        let replacement := clone n prevOp in
        let next1 :=
          setFrontBlock (focus c) (mkBlock (args front) (replacement :: ops front)) in
        (* replaceOp(prevOp, replacement->getResults()) *)
        let c2 := mapCursorUses (replaceUses (results prevOp) n)
                                (mkCursor next1 (l :: above)) in
        match layers c2 with
        | l2 :: above2 =>
          Some (mkCursor (focus c2) (setLefts l2 (tl (l_lefts l2)) :: above2))
        | [] => None
        end
      end
    end
  end.

(** The loop of lines 95-118.  [changed] is the flag of line 93.  Each turn
    removes one operation from in front of the parallel region, so the
    number of those operations bounds the turns; [fuel] counts them down. *)
Fixpoint scanPrev (fuel : nat) (changed : bool) (c : Cursor)
  : option (LogicalResult * Operation) :=
  match fuel with
  | 0 => None
  | S fuel' =>
    match layers c with
    | [] => None
    | l :: above =>
      match l_lefts l with
      | [] => None
      | prevOp :: prevIter =>
        if isParallel prevOp then mergeParallels c l above prevOp prevIter
        else if onlyReadsAndUsedInside c prevOp then
          match relocate c with
          | None => None
          | Some c' =>
            match prevIter with
            | [] => Some (success, plug c')
            | _ :: _ => scanPrev fuel' true c'
            end
          end
        else Some (changed, plug c)
      end
    end
  end.

(** Lines 81-86: the walk over the enclosing function sets [noncontained]
    when it meets a parallel region that does not have the one at [pos] as an
    ancestor. *)
Definition noncontained (func : Operation) (pos : OpPath) : bool :=
  existsb (fun po : OpPath * Operation =>
             isParallel (snd po) && negb (isAncestor pos (fst po)))
          (walk func).

(** [CombineParallel::matchAndRewrite], lines 73-127, for the parallel
    region under the cursor. *)
Definition CombineParallel (c : Cursor) : option (LogicalResult * Operation) :=
  match layers c with
  | [] => None
  | l :: _ =>
    if isNil (l_lefts l) then Some (failure, plug c) else
    match getParentOfTypeFunc c with
    | None => None
    | Some (func, pos) =>
      if negb (noncontained func pos) then Some (failure, plug c) else
      scanPrev (length (l_lefts l)) false c
    end
  end.

(** ** ParallelForInterchange and ParallelIfInterchange *)

Definition isFor (n : OpName) : bool := match n with scf_for => true | _ => false end.
Definition isIf (n : OpName) : bool := match n with scf_if => true | _ => false end.

(** The common body of lines 143-155 and 172-182, after the guards.  [l] is
    the layer of [nextParallel] (its owner is [prevFor]/[prevIf]), [g] the
    layer of that owner; [withBarrier] tells the two rules apart (lines
    149-150 exist only in the loop rule). *)
Definition interchange (withBarrier : bool) (nextParallel : Operation)
    (l g : Layer) (above : list Layer) : option (LogicalResult * Operation) :=
  (* nextParallel->moveBefore(prev): the parent block loses it *)
  let prev0 := fillLayerWith l [] in
  match frontBlock nextParallel with
  | None => None
  | Some nfront =>
    (* yield = front.getTerminator() *)
    match getTerminator nfront with
    | None => None
    | Some yield =>
      (* contents = splitBlock(front, front.begin()) *)
      let contents := ops nfront in
      let nfront1 := mkBlock (args nfront) [] in
      (* mergeBlockBefore(contents, &prev.getBody()->front()) *)
      match frontBlock prev0 with
      | None => None
      | Some body =>
        if isNil (ops body) then None else
        let body1 := mkBlock (args body) (contents ++ ops body) in
        (* setInsertionPoint(body.getTerminator()); create<omp::BarrierOp> *)
        let body2 := if withBarrier then insertBeforeTerminator barrierOp body1
                     else body1 in
        (* setInsertionPointToEnd(front); newYield = clone of yield *)
        let prev2 := setFrontBlock prev0 body2 in
        let next2 := setFrontBlock nextParallel nfront1 in
        let root2 := plugAbove above (fillLayerWith g [next2; prev2]) in
        let newYield := clone (freshBase root2) yield in
        let nfront2 := mkBlock (args nfront1) (ops nfront1 ++ [newYield]) in
        (* eraseOp(yield), which now is the last of the merged contents *)
        let next3 := setFrontBlock nextParallel nfront2 in
        let root3 := plugAbove above (fillLayerWith g [next3; prev2]) in
        if negb (useEmpty root3 yield) then None else
        let body3 := mkBlock (args body2) (eraseAt (length contents - 1) (ops body2)) in
        (* prev->moveBefore(newYield) *)
        let prev3 := setFrontBlock prev0 body3 in
        let nfront3 := mkBlock (args nfront2) (prev3 :: ops nfront2) in
        let next4 := setFrontBlock nextParallel nfront3 in
        Some (success, plugAbove above (fillLayerWith g [next4]))
      end
    end
  end.

(** [ParallelForInterchange::matchAndRewrite], lines 133-156. *)
Definition ParallelForInterchange (c : Cursor) : option (LogicalResult * Operation) :=
  match layers c with
  | [] => None
  | l :: above =>
    if negb (length (l_lefts l) + 1 + length (l_rights l) =? 2)
    then Some (failure, plug c) else
    if negb (isFor (l_name l)) || negb (isNil (l_results l))
    then Some (failure, plug c) else
    match above with
    | [] => None
    | g :: above' => interchange true (focus c) l g above'
    end
  end.

(** [ParallelIfInterchange::matchAndRewrite], lines 162-183. *)
Definition ParallelIfInterchange (c : Cursor) : option (LogicalResult * Operation) :=
  match layers c with
  | [] => None
  | l :: above =>
    if negb (length (l_lefts l) + 1 + length (l_rights l) =? 2)
    then Some (failure, plug c) else
    if negb (isIf (l_name l)) || negb (isNil (l_results l))
    then Some (failure, plug c) else
    match above with
    | [] => None
    | g :: above' => interchange false (focus c) l g above'
    end
  end.

(** ** The pass *)

(** The three patterns are [OpRewritePattern<omp::ParallelOp>]: they are
    tried on parallel regions only, in the order of line 188, and the first
    that succeeds ends the attempt. *)
Definition applyPatterns (c : Cursor) : option (LogicalResult * Operation) :=
  if negb (isParallel (focus c)) then Some (failure, plug c) else
  match CombineParallel c with
  | None => None
  | Some (true, r) => Some (success, r)
  | Some (false, _) =>
    match ParallelForInterchange c with
    | None => None
    | Some (true, r) => Some (success, r)
    | Some (false, _) => ParallelIfInterchange c
    end
  end.

(** The first of the positions [ps] at which a pattern rewrites [root];
    [Some None] when none does. *)
Fixpoint firstRewrite (root : Operation) (ps : list OpPath) : option (option Operation) :=
  match ps with
  | [] => Some None
  | p :: ps' =>
    match focusAt root p with
    | None => None
    | Some c =>
      match applyPatterns c with
      | None => None
      | Some (true, r) => Some (Some r)
      | Some (false, _) => firstRewrite root ps'
      end
    end
  end.

(** The operations the driver visits: those nested in [root], in the order
    of the walk. *)
Definition positions (root : Operation) : list OpPath := map fst (tl (walk root)).

(** Modelled from the spec: the fixpoint driver
    ([applyPatternsAndFoldGreedily] belongs to MLIR and is not part of the
    sources).  The specification has it apply the rules "to every operation in
    a function until no rule matches or an iteration cap is reached", and
    hitting the cap "is not an error - the pass stops and keeps whatever was
    rewritten so far".  Here one iteration looks at the operations nested in
    [root], in the order of the walk, and commits the first rewrite it finds;
    the driver stops when an iteration finds none, or after [maxIterations]
    iterations.  The local simplifications of the host IR (folding, removal of
    dead operations) are left out.  The boolean tells whether the driver
    stopped because no rule matched. *)
Fixpoint applyPatternsAndFoldGreedily (maxIterations : nat) (root : Operation)
  : option (bool * Operation) :=
  match maxIterations with
  | 0 => Some (false, root)
  | S k =>
    match firstRewrite root (positions root) with
    | None => None
    | Some None => Some (true, root)
    | Some (Some root') => applyPatternsAndFoldGreedily k root'
    end
  end.

Definition maxIterations : nat := 47.

(** [OpenMPOpt::runOnOperation], lines 186-193: the result of the driver is
    discarded ([(void)]), the rewritten tree is what remains. *)
Definition runOnOperation (root : Operation) : option Operation :=
  match applyPatternsAndFoldGreedily maxIterations root with
  | Some (_, root') => Some root'
  | None => None
  end.

(** ** Structural invariant: uses are dominated by their definitions *)

(** With [visible] the values defined before the operation in the enclosing
    blocks: every operand is visible, and inside each block an operation sees
    the block's arguments and the results of the operations before it. *)
Fixpoint usesDominated (visible : list Value) (o : Operation) : bool :=
  forallb (fun v => memValue v visible) (operands o)
  && forallb (fun region : Region =>
       forallb (fun b =>
         (fix go (vis : list Value) (xs : list Operation) {struct xs} : bool :=
            match xs with
            | [] => true
            | x :: xs' => usesDominated vis x && go (vis ++ results x) xs'
            end) (visible ++ args b) (ops b))
       region)
     (regions o).

(** ** The classifier in the words of the specification *)

(** "Performs no writes/allocations, only reads, recursively through any
    owned regions": every effect the operation declares is a read, and so
    for everything nested in it. *)
Fixpoint performsOnlyReads (op : Operation) : bool :=
  forallb isRead (match memoryEffects op with Some es => es | None => [] end)
  && forallb (fun region : Region =>
       forallb (fun block => forallb performsOnlyReads (ops block)) region)
     (regions op).

(** What the classifier accepts, as a predicate. *)
Inductive ReadOnly : Operation -> Prop :=
| ReadOnly_intro op effects :
    memoryEffects op = Some effects ->
    Forall (fun e => e = Read) effects ->
    (hasRecursiveSideEffects op = true ->
     Forall (Forall (fun b => Forall ReadOnly (ops b))) (regions op)) ->
    ReadOnly op.

(** The scan, as a relation: [ScanReaches k c c'] when, starting with the
    cursor [c], the loop relocates [k] operations one after the other and
    then stands at [c'] with a predecessor still to look at. *)
Definition leftsOf (c : Cursor) : list Operation :=
  match layers c with
  | l :: _ => l_lefts l
  | [] => []
  end.

Inductive ScanReaches : nat -> Cursor -> Cursor -> Prop :=
| ScanReaches_here c : ScanReaches 0 c c
| ScanReaches_move k c c1 c' prevOp prevIter :
    leftsOf c = prevOp :: prevIter ->
    prevIter <> [] ->
    isParallel prevOp = false ->
    onlyReadsAndUsedInside c prevOp = true ->
    relocate c = Some c1 ->
    ScanReaches k c1 c' ->
    ScanReaches (S k) c c'.

(** An operation is fully annotated when it, and everything nested in it,
    implements the effect interface, and carries the recursive trait
    wherever it owns regions. *)
Fixpoint fullyAnnotated (op : Operation) : bool :=
  match memoryEffects op with Some _ => true | None => false end
  && (hasRecursiveSideEffects op || isNil (regions op))
  && forallb (fun region : Region =>
       forallb (fun block => forallb fullyAnnotated (ops block)) region)
     (regions op).

(** [RewriteSteps k root root']: [k] iterations of the driver, each with a
    rewrite, lead from [root] to [root']. *)
Inductive RewriteSteps : nat -> Operation -> Operation -> Prop :=
| RewriteSteps_none root : RewriteSteps 0 root root
| RewriteSteps_more k root root1 root' :
    firstRewrite root (positions root) = Some (Some root1) ->
    RewriteSteps k root1 root' ->
    RewriteSteps (S k) root root'.

(** The barriers of a tree. *)
Definition isBarrier (o : Operation) : nat :=
  match name o with omp_barrier => 1 | _ => 0 end.

Fixpoint countBarriers (o : Operation) : nat :=
  isBarrier o
  + list_sum (map (fun region : Region =>
       list_sum (map (fun b => list_sum (map countBarriers (ops b))) region))
     (regions o)).

Definition barriersIn (xs : list Operation) : nat := list_sum (map countBarriers xs).
Definition barriersInBlocks (bs : list (Block Operation)) : nat :=
  list_sum (map (fun b => barriersIn (ops b)) bs).
Definition barriersInRegions (rs : list Region) : nat :=
  list_sum (map barriersInBlocks rs).

(** ** Sample programs and auxiliary definitions *)

(** An operation without the interface and without regions, and a loop-like
    operation that has the interface but not the recursive trait around a
    store. *)
Definition opaqueOp : Operation := mkOp (other "test.opaque") false None [] [] [].
Definition storeOp : Operation := mkOp (other "memref.store") false (Some [Write]) [] [] [].
Definition wrapperOp : Operation :=
  mkOp (other "test.wrapper") false (Some [Read]) [] [] [[mkBlock [] [storeOp]]].


Definition terminatorOp : Operation := mkOp omp_terminator false None [] [] [].
Definition yieldOp : Operation := mkOp scf_yield false (Some []) [] [] [].
Definition returnOp : Operation := mkOp (other "func.return") false (Some []) [] [] [].
Definition constantOp (r : Value) : Operation :=
  mkOp (other "arith.constant") false (Some []) [] [r] [].
Definition loadOp (m r : Value) : Operation :=
  mkOp (other "memref.load") false (Some [Read]) [m] [r] [].
Definition storeTo (v m : Value) : Operation :=
  mkOp (other "memref.store") false (Some [Write]) [v; m] [] [].
Definition parallelOp (clauses : list Value) (body : list Operation) : Operation :=
  mkOp omp_parallel false None clauses [] [[mkBlock [] body]].
Definition forOp (lb ub step iv : Value) (body : list Operation) : Operation :=
  mkOp scf_for true None [lb; ub; step] [] [[mkBlock [iv] body]].
Definition ifOp (cond : Value) (thenOps elseOps : list Operation) : Operation :=
  mkOp scf_if true None [cond] [] [[mkBlock [] thenOps]; [mkBlock [] elseOps]].
Definition funcOp (params : list Value) (body : list Operation) : Operation :=
  mkOp func_func false None [] [] [[mkBlock params body]].

(** The cursor at [p], or the root where there is no such position. *)
Definition cursorAt (root : Operation) (p : OpPath) : Cursor :=
  match focusAt root p with
  | Some c => c
  | None => mkCursor root []
  end.

(** [parallel { store }; load; parallel { store of the loaded value }]. *)
Definition twoParallels : Operation :=
  funcOp [0]
    [ parallelOp [] [storeTo 0 0; terminatorOp];
      loadOp 0 1;
      parallelOp [] [storeTo 1 0; terminatorOp];
      returnOp ].

Definition twoParallels_merged : Operation :=
  funcOp [0]
    [ parallelOp []
        [storeTo 0 0; barrierOp; loadOp 0 3; storeTo 3 0; terminatorOp];
      returnOp ].

(** A constant that is the [num_threads] clause of the parallel region
    behind it; a store and a second parallel region follow. *)
Definition clauseFromConstant : Operation :=
  funcOp [0]
    [ constantOp 1;
      parallelOp [1] [storeTo 0 0; terminatorOp];
      storeTo 0 0;
      parallelOp [] [terminatorOp];
      returnOp ].

Definition clauseFromConstant_hoisted : Operation :=
  funcOp [0]
    [ parallelOp [3] [constantOp 3; storeTo 0 0; terminatorOp];
      storeTo 0 0;
      parallelOp [] [terminatorOp];
      returnOp ].

(** A parallel region alone in the else branch of a conditional whose then
    branch stores. *)
Definition parallelInElse : Operation :=
  funcOp [0; 1]
    [ ifOp 1 [storeTo 0 0; yieldOp]
             [parallelOp [] [storeTo 1 0; terminatorOp]; yieldOp];
      returnOp ].

Definition parallelInElse_rewritten : Operation :=
  funcOp [0; 1]
    [ parallelOp []
        [ ifOp 1 [storeTo 1 0; storeTo 0 0; yieldOp] [yieldOp];
          terminatorOp ];
      returnOp ].

(** A parallel region inside [n] nested loops without results. *)
Fixpoint forNest (n : nat) (inner : Operation) : Operation :=
  match n with
  | 0 => inner
  | S k => forOp 0 1 2 (3 + k) [forNest k inner; yieldOp]
  end.

Definition deepNest : Operation :=
  funcOp [0; 1; 2] [forNest 48 (parallelOp [] [terminatorOp]); returnOp].

Definition firstOpName (root : Operation) : option OpName :=
  match regions root with
  | (b :: _) :: _ =>
    match ops b with
    | o :: _ => Some (name o)
    | [] => None
    end
  | _ => None
  end.

(** The cursor after one relocation. *)
Definition relocated (c : Cursor) : Cursor :=
  match relocate c with
  | Some c' => c'
  | None => c
  end.

Definition topLayer (c : Cursor) : Layer :=
  match layers c with
  | l :: _ => l
  | [] => mkLayer [] [] [] func_func false None [] [] [] [] [] []
  end.

(** [for { parallel { store } }]. *)
Definition parallelInLoop : Operation :=
  funcOp [0; 1; 2; 3]
    [ forOp 1 2 3 4 [parallelOp [] [storeTo 4 0; terminatorOp]; yieldOp];
      returnOp ].

(** A parallel region with another one inside it and none elsewhere. *)
Definition nestedParallels : Operation :=
  funcOp [0]
    [ loadOp 0 1;
      parallelOp [] [parallelOp [] [terminatorOp]; terminatorOp];
      returnOp ].

(** [store; load; parallel { store of the loaded value }; parallel {}]. *)
Definition loadBehindStore : Operation :=
  funcOp [0]
    [ storeTo 0 0;
      loadOp 0 1;
      parallelOp [] [storeTo 1 0; terminatorOp];
      parallelOp [] [terminatorOp];
      returnOp ].

(** [parallel {}; opaque; parallel {}]. *)
Definition opaqueBetween : Operation :=
  funcOp [0]
    [ parallelOp [] [terminatorOp];
      opaqueOp;
      parallelOp [] [terminatorOp];
      returnOp ].

(** ** Measures of a tree, and further sample programs *)

(** The operations of a tree, weighed by kind: [weight w o] adds up
    [w (name x)] over [o] and everything nested in it.  With [w] the
    indicator of a kind it counts the operations of that kind. *)
Section Weight.
Variable w : OpName -> nat.

Fixpoint weight (o : Operation) : nat :=
  w (name o)
  + list_sum (map (fun region : Region =>
       list_sum (map (fun b => list_sum (map weight (ops b))) region))
     (regions o)).

Definition weightOps (xs : list Operation) : nat := list_sum (map weight xs).

(** What a layer adds around the operations in its hole. *)
Definition layerWeight (l : Layer) : nat :=
  weight (fillLayerWith (setLefts l []) []).
End Weight.

(** The operands of an operation and of everything nested in it. *)
Fixpoint operandsOf (o : Operation) : list Value :=
  operands o
  ++ flat_map (fun region : Region =>
       flat_map (fun b => flat_map operandsOf (ops b)) region)
     (regions o).

(** [nextParallel] once [mergeBlocks] has taken its first block away. *)
Definition withoutFrontBlock (o : Operation) : Operation :=
  withRegions o
    (match regions o with
     | (_ :: bs) :: rs => bs :: rs
     | rs => rs
     end).

Definition isParallelName (n : OpName) : nat :=
  match n with omp_parallel => 1 | _ => 0 end.

Definition isBarrierName (n : OpName) : nat :=
  match n with omp_barrier => 1 | _ => 0 end.

(** The operands of everything a layer holds around its hole: those of the
    owner, of the operations beside the hole, and of the owner's other blocks
    and regions. *)
Definition layerOperands (l : Layer) : list Value :=
  l_operands l
  ++ flat_map operandsOf (l_lefts l)
  ++ flat_map operandsOf (l_rights l)
  ++ flat_map (fun b => flat_map operandsOf (ops b)) (l_blksL l ++ l_blksR l)
  ++ flat_map (fun region : Region =>
       flat_map (fun b => flat_map operandsOf (ops b)) region)
     (l_regsL l ++ l_regsR l).

(** The parallel region once [prevOp] has been relocated into it: the clone
    in front of its first block, the uses of the results of [prevOp]
    redirected. *)
Definition withRelocated (root nextParallel prevOp : Operation)
    (front : Block Operation) : Operation :=
  mapValues (fun v => v) (replaceUses (results prevOp) (freshBase root))
    (setFrontBlock nextParallel
       (mkBlock (args front) (clone (freshBase root) prevOp :: ops front))).

(** [load; parallel { store of the loaded value }; store; parallel {}]. *)
Definition loadInFront : Operation :=
  funcOp [0]
    [ loadOp 0 1;
      parallelOp [] [storeTo 1 0; terminatorOp];
      storeTo 0 0;
      parallelOp [] [terminatorOp];
      returnOp ].

(** A loop-like operation with the recursive trait around a store. *)
Definition recursiveWrapper : Operation :=
  mkOp (other "test.loop") true (Some []) [] []
       [[mkBlock [] [storeOp; yieldOp]]].


Definition allocOp (r : Value) : Operation :=
  mkOp (other "memref.alloca") false (Some [Allocate]) [] [r] [].

Definition parallelInLoop_rewritten : Operation :=
  funcOp [0; 1; 2; 3]
    [ parallelOp []
        [ forOp 1 2 3 4 [storeTo 4 0; barrierOp; yieldOp];
          terminatorOp ];
      returnOp ].

Definition loadInFront_hoisted : Operation :=
  funcOp [0]
    [ parallelOp [] [loadOp 0 3; storeTo 3 0; terminatorOp];
      storeTo 0 0;
      parallelOp [] [terminatorOp];
      returnOp ].

(** [cf.br], the terminator of a block that is not the last of its region. *)
Definition branchOp : Operation := mkOp (other "cf.br") false (Some []) [] [] [].

(** [parallel { store }; parallel { ^bb0: store; br ^bb1; ^bb1: load; store
    of the loaded value }]. *)
Definition twoBlockParallel : Operation :=
  funcOp [0]
    [ parallelOp [] [storeTo 0 0; terminatorOp];
      mkOp omp_parallel false None [] []
           [[ mkBlock [] [storeTo 0 0; branchOp];
              mkBlock [] [loadOp 0 1; storeTo 1 0; terminatorOp] ]];
      returnOp ].

Definition twoBlockParallel_merged : Operation :=
  funcOp [0]
    [ parallelOp []
        [ storeTo 0 0;
          mkOp omp_barrier false None [] [] [];
          storeTo 0 0;
          branchOp ];
      returnOp ].

(** A load that is the clause operand of the parallel region behind it, with
    a store in front and a second parallel region behind. *)
Definition clauseFromLoad : Operation :=
  funcOp [0]
    [ storeTo 0 0;
      loadOp 0 1;
      parallelOp [1] [storeTo 0 0; terminatorOp];
      parallelOp [] [terminatorOp];
      returnOp ].

Definition clauseFromLoad_hoisted : Operation :=
  funcOp [0]
    [ storeTo 0 0;
      parallelOp [3] [loadOp 0 3; storeTo 0 0; terminatorOp];
      parallelOp [] [terminatorOp];
      returnOp ].

(** [load; parallel { store of the loaded value }; store of the loaded
    value; parallel {}]. *)
Definition loadUsedBehind : Operation :=
  funcOp [0]
    [ loadOp 0 1;
      parallelOp [] [storeTo 1 0; terminatorOp];
      storeTo 1 0;
      parallelOp [] [terminatorOp];
      returnOp ].

(** * Properties *)

(** ** The classifier *)

Lemma forallb_Forall_iff (A : Type) (f : A -> bool) (P : A -> Prop) (l : list A) :
  Forall (fun x => f x = true <-> P x) l ->
  (forallb f l = true <-> Forall P l).
Proof.
  induction 1 as [|x l Hx _ IH]; simpl.
  - split; [constructor | reflexivity].
  - rewrite andb_true_iff, IH, Hx. split.
    + intros [? ?]; constructor; assumption.
    + inversion 1; subst; split; assumption.
Qed.

Lemma isRead_iff (e : Effect) : isRead e = true <-> e = Read.
Proof. destruct e; simpl; split; congruence. Qed.

Lemma isReadOnly_unfold (op : Operation) :
  isReadOnly op =
  if hasRecursiveSideEffects op
     && negb (forallb (fun region : Region =>
                forallb (fun block => forallb isReadOnly (ops block)) region)
              (regions op))
  then false
  else match memoryEffects op with
       | Some effects => forallb isRead effects
       | None => false
       end.
Proof. destruct op; reflexivity. Qed.

Lemma nested_readOnly_iff (regs : list Region) :
  Forall (Forall (fun b => Forall (fun o => isReadOnly o = true <-> ReadOnly o) (ops b))) regs ->
  (forallb (fun region : Region =>
      forallb (fun block => forallb isReadOnly (ops block)) region) regs = true
   <-> Forall (Forall (fun b => Forall ReadOnly (ops b))) regs).
Proof.
  intros H. apply forallb_Forall_iff.
  eapply Forall_impl; [|exact H]. intros region Hregion.
  apply forallb_Forall_iff.
  eapply Forall_impl; [|exact Hregion]. intros b Hb.
  apply forallb_Forall_iff. exact Hb.
Qed.

(** C5, as amended: the classifier returns read-only exactly when the
    operation implements the memory-effect interface, every effect it
    declares is a read, and, if it carries the recursive-side-effects trait,
    every operation nested in its regions is read-only in the same sense. *)
Theorem isReadOnly_iff_ReadOnly (op : Operation) :
  isReadOnly op = true <-> ReadOnly op.
Proof.
  induction op as [n r e os rs regs IH] using Operation_nested_ind.
  rewrite isReadOnly_unfold; simpl.
  pose proof (nested_readOnly_iff IH) as Hnested.
  remember (forallb (fun region : Region =>
              forallb (fun block => forallb isReadOnly (ops block)) region) regs)
    as nested eqn:Enested.
  split.
  - intros H.
    destruct e as [effects|]; [|destruct (r && negb nested); discriminate].
    assert (Hall : forallb isRead effects = true)
      by (destruct (r && negb nested); [discriminate | exact H]).
    apply ReadOnly_intro with (effects := effects); simpl.
    + reflexivity.
    + rewrite forallb_forall in Hall. apply Forall_forall.
      intros x Hx. apply isRead_iff, Hall, Hx.
    + intros Hr. apply Hnested. rewrite Hr in H.
      destruct nested; [reflexivity | discriminate].
  - intros H. inversion H as [op effects Heff Hreads Hrec]; subst op; simpl in *.
    rewrite Heff.
    assert (Hall : forallb isRead effects = true).
    { apply forallb_forall. intros x Hx. apply isRead_iff.
      rewrite Forall_forall in Hreads. apply Hreads, Hx. }
    destruct r; simpl; [|exact Hall].
    apply Hnested in Hrec; [|reflexivity]. rewrite Hrec. exact Hall.
Qed.

(** C5, counterexample: the classifier and the property in the words of the
    specification differ in both directions. *)
Lemma isReadOnly_not_performsOnlyReads :
  (isReadOnly opaqueOp = false /\ performsOnlyReads opaqueOp = true)
  /\ (isReadOnly wrapperOp = true /\ performsOnlyReads wrapperOp = false).
Proof. repeat split. Qed.

(** ** The backward scan of CombineParallel *)

Lemma leftsOf_layers (c : Cursor) (x : Operation) (xs : list Operation) :
  leftsOf c = x :: xs ->
  exists l above, layers c = l :: above /\ l_lefts l = x :: xs.
Proof.
  unfold leftsOf. destruct (layers c) as [|l above]; [discriminate|].
  intros H. exists l, above. split; [reflexivity | exact H].
Qed.

Lemma relocate_lefts (c c1 : Cursor) (prevOp : Operation) (prevIter : list Operation) :
  leftsOf c = prevOp :: prevIter ->
  relocate c = Some c1 ->
  length (leftsOf c1) = length prevIter.
Proof.
  intros Hl Hr. apply leftsOf_layers in Hl as (l & above & Hlay & Hlefts).
  unfold relocate in Hr. rewrite Hlay, Hlefts in Hr.
  destruct (frontBlock (focus c)) as [front|]; [|discriminate].
  simpl in Hr. injection Hr as <-. unfold leftsOf; simpl.
  rewrite Hlefts; simpl. apply length_map.
Qed.

Lemma ScanReaches_lefts (k : nat) (c c' : Cursor) :
  ScanReaches k c c' -> length (leftsOf c) = k + length (leftsOf c').
Proof.
  induction 1 as [c | k c c1 c' prevOp prevIter Hl Hne Hp He Hr _ IH]; [reflexivity|].
  rewrite Hl; simpl. f_equal. rewrite <- IH. symmetry.
  eapply relocate_lefts; eassumption.
Qed.

(** After [k] relocations the loop goes on from the cursor it has reached,
    with the flag set if [k] is not zero. *)
Lemma scanPrev_reaches (k : nat) (c c' : Cursor) :
  ScanReaches k c c' ->
  forall fuel changed,
    scanPrev (k + S fuel) changed c
    = scanPrev (S fuel) (changed || negb (k =? 0)) c'.
Proof.
  induction 1 as [c | k c c1 c' prevOp prevIter Hl Hne Hp He Hr _ IH];
    intros fuel changed.
  - simpl (0 + _). rewrite orb_false_r. reflexivity.
  - apply leftsOf_layers in Hl as (l & above & Hlay & Hlefts).
    change (S k + S fuel) with (S (k + S fuel)).
    simpl scanPrev at 1. rewrite Hlay, Hlefts, Hp, He, Hr.
    destruct prevIter as [|y ys]; [congruence|].
    rewrite IH. simpl. rewrite orb_true_r. reflexivity.
Qed.

(** A failing scan has neither moved anything nor set the flag. *)
Lemma scanPrev_failure (fuel : nat) :
  forall changed c r,
    scanPrev fuel changed c = Some (failure, r) ->
    changed = false /\ r = plug c.
Proof.
  induction fuel as [|fuel IH]; intros changed c r H; simpl in H; [discriminate|].
  destruct (layers c) as [|l above] eqn:Hlay; [discriminate|].
  destruct (l_lefts l) as [|prevOp prevIter]; [discriminate|].
  destruct (isParallel prevOp).
  - unfold mergeParallels in H.
    repeat match type of H with
           | match ?x with _ => _ end = _ => destruct x; try discriminate
           | (if ?x then _ else _) = _ => destruct x; try discriminate
           end.
  - destruct (onlyReadsAndUsedInside c prevOp).
    + destruct (relocate c) as [c'|]; [|discriminate].
      destruct prevIter; [discriminate|].
      apply IH in H as [H _]. discriminate.
    + injection H as -> ->. split; reflexivity.
Qed.

Lemma interchange_success (b : bool) (o : Operation) (l g : Layer)
    (above : list Layer) (res : LogicalResult) (r : Operation) :
  interchange b o l g above = Some (res, r) -> res = success.
Proof.
  unfold interchange. intros H.
  repeat match type of H with
         | match ?x with _ => _ end = _ => destruct x; try discriminate
         | (if ?x then _ else _) = _ => destruct x; try discriminate
         end;
  injection H as <- _; reflexivity.
Qed.

Lemma CombineParallel_scan (c : Cursor) (func : Operation) (pos : OpPath)
    (x : Operation) (xs : list Operation) :
  leftsOf c = x :: xs ->
  getParentOfTypeFunc c = Some (func, pos) ->
  noncontained func pos = true ->
  CombineParallel c = scanPrev (length (leftsOf c)) false c.
Proof.
  intros Hl Hf Hn. unfold CombineParallel.
  apply leftsOf_layers in Hl as (l & above & Hlay & Hlefts).
  unfold leftsOf. rewrite Hlay, Hlefts, Hf, Hn. reflexivity.
Qed.

(** ** CombineParallel: the guards *)

(** C6: CombineParallel returns failure and leaves the tree as it is when
    the parallel region is the first operation of its block, and when no
    parallel region of the enclosing function lies outside it. *)
Theorem CombineParallel_guards (c : Cursor) (l : Layer) (above : list Layer) :
  layers c = l :: above ->
  (l_lefts l = []
   \/ exists func pos,
        getParentOfTypeFunc c = Some (func, pos)
        /\ forall q other, In (q, other) (walk func) ->
             isParallel other = true -> isAncestor pos q = true) ->
  CombineParallel c = Some (failure, plug c).
Proof.
  intros Hlay H. unfold CombineParallel. rewrite Hlay.
  destruct H as [Hfirst | (func & pos & Hf & Hall)].
  - rewrite Hfirst. reflexivity.
  - destruct (isNil (l_lefts l)); [reflexivity|].
    rewrite Hf.
    assert (Hn : noncontained func pos = false).
    { unfold noncontained. apply not_true_is_false. intros Hex.
      apply existsb_exists in Hex as ([q other] & Hin & Hpo). simpl in Hpo.
      apply andb_true_iff in Hpo as [Hp Hna].
      rewrite (Hall q other Hin Hp) in Hna. discriminate. }
    rewrite Hn. reflexivity.
Qed.

(** ** Failure leaves the tree alone *)

(** A rule that returns failure returns the tree it was given; and when
    the scan of CombineParallel, after [k] relocations, stops at a
    predecessor that is neither a parallel region nor movable, the rule
    reports success exactly when [k] is not zero, and with [k = 0] the tree
    is the one it started from. *)
Theorem failure_mutates_nothing (c : Cursor) :
  (forall r,
      CombineParallel c = Some (failure, r)
      \/ ParallelForInterchange c = Some (failure, r)
      \/ ParallelIfInterchange c = Some (failure, r) ->
      r = plug c)
  /\ (forall k c' prevOp prevIter func pos,
        getParentOfTypeFunc c = Some (func, pos) ->
        noncontained func pos = true ->
        ScanReaches k c c' ->
        leftsOf c' = prevOp :: prevIter ->
        isParallel prevOp = false ->
        onlyReadsAndUsedInside c' prevOp = false ->
        CombineParallel c = Some (negb (k =? 0), plug c')
        /\ (k = 0 -> plug c' = plug c)).
Proof.
  split.
  - intros r [H | [H | H]].
    + unfold CombineParallel in H.
      destruct (layers c) as [|l above]; [discriminate|].
      destruct (isNil (l_lefts l)); [injection H as <-; reflexivity|].
      destruct (getParentOfTypeFunc c) as [[func pos]|]; [|discriminate].
      destruct (negb (noncontained func pos)); [injection H as <-; reflexivity|].
      apply scanPrev_failure in H as [_ H]. exact H.
    + unfold ParallelForInterchange in H.
      destruct (layers c) as [|l above]; [discriminate|].
      destruct (negb (_ =? 2)); [injection H as <-; reflexivity|].
      destruct (negb (isFor _) || _); [injection H as <-; reflexivity|].
      destruct above as [|g above']; [discriminate|].
      apply interchange_success in H. discriminate.
    + unfold ParallelIfInterchange in H.
      destruct (layers c) as [|l above]; [discriminate|].
      destruct (negb (_ =? 2)); [injection H as <-; reflexivity|].
      destruct (negb (isIf _) || _); [injection H as <-; reflexivity|].
      destruct above as [|g above']; [discriminate|].
      apply interchange_success in H. discriminate.
  - intros k c' prevOp prevIter func pos Hf Hn Hreach Hl Hp He.
    assert (Hlen : length (leftsOf c) = k + S (length prevIter)).
    { rewrite (ScanReaches_lefts Hreach), Hl. reflexivity. }
    assert (Hc : exists x xs, leftsOf c = x :: xs).
    { destruct (leftsOf c) as [|x xs]; [simpl in Hlen; lia | eauto]. }
    destruct Hc as (x & xs & Hc).
    rewrite (CombineParallel_scan _ Hc Hf Hn), Hlen.
    rewrite (scanPrev_reaches Hreach). simpl orb.
    split.
    + apply leftsOf_layers in Hl as (l & above & Hlay & Hlefts).
      simpl. rewrite Hlay, Hlefts, Hp, He. reflexivity.
    + intros ->. inversion Hreach; subst. reflexivity.
Qed.

(** ** The classifier and operations without the effect interface *)

(** C10: an operation that does not implement the memory-effect interface
    is not read-only, whatever it contains; without the recursive trait the
    nested operations are not looked at; and the scan of CombineParallel,
    standing in front of such an operation (not itself a parallel region),
    relocates nothing more and returns with the flag it has. *)
Theorem interfaceless_blocks_hoisting (op : Operation) :
  (memoryEffects op = None -> isReadOnly op = false)
  /\ (hasRecursiveSideEffects op = false ->
      isReadOnly op = match memoryEffects op with
                      | Some effects => forallb isRead effects
                      | None => false
                      end)
  /\ (forall fuel changed c l above prevIter,
        memoryEffects op = None ->
        isParallel op = false ->
        layers c = l :: above ->
        l_lefts l = op :: prevIter ->
        scanPrev (S fuel) changed c = Some (changed, plug c)).
Proof.
  assert (H1 : memoryEffects op = None -> isReadOnly op = false).
  { intros H. rewrite isReadOnly_unfold, H. destruct (_ && _); reflexivity. }
  split; [exact H1|]. split.
  - intros H. rewrite isReadOnly_unfold, H. reflexivity.
  - intros fuel changed c l above prevIter He Hp Hlay Hlefts.
    simpl. rewrite Hlay, Hlefts, Hp.
    unfold onlyReadsAndUsedInside. rewrite (H1 He). reflexivity.
Qed.

(** ** Lists of operations *)

Lemma lastOp_last (xs : list Operation) (t : Operation) :
  lastOp (xs ++ [t]) = Some t.
Proof.
  induction xs as [|x xs IH]; [reflexivity|].
  simpl. destruct (xs ++ [t]) eqn:E; [destruct xs; discriminate | exact IH].
Qed.


Lemma useEmpty_no_results (root o : Operation) :
  results o = [] -> useEmpty root o = true.
Proof. unfold useEmpty. intros ->. reflexivity. Qed.

(** ** CombineParallel: the merge *)

(** When the scan of CombineParallel stands in front of a parallel region
    [Q], the rule succeeds; afterwards [Q] is where it was, its first block
    holds its former operations without the terminator, then an
    [omp.barrier] without operands and results, then the operations of the
    first block of [P]; and [P] is gone from the block. *)
Theorem merge_gives_body_barrier_body
    (c c' : Cursor) (k : nat) (func : Operation) (pos : OpPath)
    (l : Layer) (above : list Layer) (Q : Operation) (before : list Operation)
    (qargs : list Value) (qbody : list Operation) (qterm : Operation)
    (pbody : list Operation) :
  getParentOfTypeFunc c = Some (func, pos) ->
  noncontained func pos = true ->
  ScanReaches k c c' ->
  layers c' = l :: above ->
  l_lefts l = Q :: before ->
  isParallel Q = true ->
  frontBlock Q = Some (mkBlock qargs (qbody ++ [qterm])) ->
  results qterm = [] ->
  frontBlock (focus c') = Some (mkBlock [] pbody) ->
  results (focus c') = [] ->
  CombineParallel c
  = Some (success,
          plugAbove above
            (fillLayer (setLefts l before)
               (setFrontBlock Q
                  (mkBlock qargs
                     (qbody ++ mkOp omp_barrier false None [] [] [] :: pbody))))).
Proof.
  intros Hf Hn Hreach Hlay Hlefts HQ HQfront Hterm HPfront HPres.
  assert (Hl : leftsOf c' = Q :: before) by (unfold leftsOf; rewrite Hlay; exact Hlefts).
  assert (Hlen : length (leftsOf c) = k + S (length before)).
  { rewrite (ScanReaches_lefts Hreach), Hl. reflexivity. }
  assert (Hc : exists x xs, leftsOf c = x :: xs).
  { destruct (leftsOf c) as [|x xs]; [simpl in Hlen; lia | eauto]. }
  destruct Hc as (x & xs & Hc).
  rewrite (CombineParallel_scan _ Hc Hf Hn), Hlen, (scanPrev_reaches Hreach).
  simpl scanPrev. rewrite Hlay, Hlefts, HQ.
  unfold mergeParallels. rewrite HQfront, HPfront.
  unfold getTerminator. cbn [ops args]. rewrite lastOp_last, Hterm.
  cbn [isNil negb].
  rewrite useEmpty_no_results by (exact HPres).
  cbn [negb]. rewrite removelast_last.
  unfold fillLayer, fillLayerWith, setLefts. cbn -[setFrontBlock].
  rewrite <- !app_assoc. reflexivity.
Qed.

(** ** The interchange rules *)



(** The load ends up behind the barrier, in front of the second body. *)
Example CombineParallel_twoParallels :
  CombineParallel (cursorAt twoParallels [(0, 0, 2)])
  = Some (success, twoParallels_merged).
Proof. reflexivity. Qed.

(** C1, at the failing input: the parallel region [P] has two blocks.  The
    rule replaces the terminator of [Q] by an [omp.barrier], appends the
    operations of the first block of [P], and erases [P] with its second
    block: the load and the store of that block are in the tree given and
    nowhere in the tree returned. *)
Theorem merge_drops_further_blocks :
  let c := cursorAt twoBlockParallel [(0, 0, 1)] in
  plug c = twoBlockParallel
  /\ regions (focus c)
     = [[ mkBlock [] [storeTo 0 0; branchOp];
          mkBlock [] [loadOp 0 1; storeTo 1 0; terminatorOp] ]]
  /\ CombineParallel c = Some (success, twoBlockParallel_merged)
  /\ (forall o, In o [loadOp 0 1; storeTo 1 0] ->
        In o (map snd (walk twoBlockParallel))
        /\ ~ In o (map snd (walk twoBlockParallel_merged))).
Proof.
  cbv zeta. split; [reflexivity|]. split; [reflexivity|].
  split; [reflexivity|].
  intros o [<- | [<- | []]]; (split; [simpl; tauto|]);
    intros H; simpl in H;
    repeat (destruct H as [H | H]; [discriminate H|]); exact H.
Qed.

(** ** Counting barriers *)

Lemma countBarriers_unfold (o : Operation) :
  countBarriers o = isBarrier o + barriersInRegions (regions o).
Proof. destruct o; reflexivity. Qed.

Lemma barriersIn_app (xs ys : list Operation) :
  barriersIn (xs ++ ys) = barriersIn xs + barriersIn ys.
Proof. unfold barriersIn. rewrite map_app, list_sum_app. reflexivity. Qed.

Lemma barriersInBlocks_app (xs ys : list (Block Operation)) :
  barriersInBlocks (xs ++ ys) = barriersInBlocks xs + barriersInBlocks ys.
Proof. unfold barriersInBlocks. rewrite map_app, list_sum_app. reflexivity. Qed.

Lemma barriersInRegions_app (xs ys : list Region) :
  barriersInRegions (xs ++ ys) = barriersInRegions xs + barriersInRegions ys.
Proof. unfold barriersInRegions. rewrite map_app, list_sum_app. reflexivity. Qed.

Lemma countBarriers_fillLayerWith (l : Layer) (mid : list Operation) :
  countBarriers (fillLayerWith l mid)
  = barriersIn mid + countBarriers (fillLayerWith l []).
Proof.
  rewrite !countBarriers_unfold. unfold fillLayerWith, isBarrier.
  cbn [name regions].
  unfold barriersInRegions, barriersInBlocks, barriersIn.
  repeat (rewrite !map_app, !list_sum_app; cbn [map list_sum fold_right ops app]).
  lia.
Qed.

Lemma countBarriers_plugAbove (ls : list Layer) :
  forall o o' k,
    countBarriers o' = k + countBarriers o ->
    countBarriers (plugAbove ls o') = k + countBarriers (plugAbove ls o).
Proof.
  induction ls as [|l ls IH]; intros o o' k H; [exact H|].
  change (plugAbove (l :: ls) ?x) with (plugAbove ls (fillLayer l x)).
  apply IH. unfold fillLayer.
  rewrite (countBarriers_fillLayerWith l [o']), (countBarriers_fillLayerWith l [o]).
  unfold barriersIn; simpl. lia.
Qed.

Lemma countBarriers_setFrontBlock (o : Operation) (b b' : Block Operation) :
  frontBlock o = Some b ->
  countBarriers (setFrontBlock o b') + barriersIn (ops b)
  = countBarriers o + barriersIn (ops b').
Proof.
  unfold frontBlock, setFrontBlock. rewrite !countBarriers_unfold.
  destruct (regions o) as [|[|b0 bs] rs] eqn:E; try discriminate.
  intros H; injection H as ->. rewrite ?countBarriers_unfold. simpl.
  unfold isBarrier; simpl. unfold barriersInRegions, barriersInBlocks; simpl. lia.
Qed.

Lemma barriersIn_eraseLast (xs zs : list Operation) (y : Operation) :
  lastOp xs = Some y ->
  barriersIn (eraseAt (length xs - 1) (xs ++ zs)) + countBarriers y
  = barriersIn xs + barriersIn zs.
Proof.
  induction xs as [|x xs IH]; [discriminate|].
  destruct xs as [|x' xs'].
  - simpl. intros H; injection H as ->. unfold barriersIn; simpl. lia.
  - intros H. change (lastOp (x :: x' :: xs')) with (lastOp (x' :: xs')) in H.
    specialize (IH H). simpl length in *. 
    replace (S (S (length xs')) - 1) with (S (length xs')) by lia.
    replace (S (length xs') - 1) with (length xs') in IH by lia.
    simpl. unfold barriersIn in *. simpl in *. lia.
Qed.

Lemma countBarriers_mapValues (fd fu : Value -> Value) (o : Operation) :
  countBarriers (mapValues fd fu o) = countBarriers o.
Proof.
  induction o as [n r e os rs regs IH] using Operation_nested_ind.
  simpl. f_equal. rewrite map_map. f_equal.
  apply map_ext_in. intros region Hin. rewrite Forall_forall in IH.
  specialize (IH region Hin). rewrite map_map. f_equal.
  apply map_ext_in. intros b Hb. rewrite Forall_forall in IH.
  specialize (IH b Hb). simpl. rewrite map_map. f_equal.
  apply map_ext_in. intros x Hx. rewrite Forall_forall in IH. exact (IH x Hx).
Qed.

Lemma lastOp_removelast (xs : list Operation) (t : Operation) :
  lastOp xs = Some t -> xs = removelast xs ++ [t].
Proof.
  induction xs as [|x xs IH]; [discriminate|].
  destruct xs as [|x' xs'].
  - intros H; injection H as ->. reflexivity.
  - intros H. change (lastOp (x :: x' :: xs')) with (lastOp (x' :: xs')) in H.
    change (removelast (x :: x' :: xs')) with (x :: removelast (x' :: xs')).
    simpl app. f_equal. exact (IH H).
Qed.

Lemma lastOp_nonempty (xs : list Operation) :
  xs <> [] -> exists t, lastOp xs = Some t.
Proof.
  induction xs as [|x xs IH]; [congruence|]. intros _.
  destruct xs as [|x' xs']; [exists x; reflexivity|].
  destruct IH as [t Ht]; [discriminate|]. exists t. exact Ht.
Qed.

Lemma lastOp_app (xs ys : list Operation) :
  ys <> [] -> lastOp (xs ++ ys) = lastOp ys.
Proof.
  intros Hys. induction xs as [|x xs IH]; [reflexivity|].
  simpl. destruct (xs ++ ys) eqn:E; [|exact IH].
  apply app_eq_nil in E as [_ E]. contradiction.
Qed.

Lemma countBarriers_clone (n : nat) (o : Operation) :
  countBarriers (clone n o) = countBarriers o.
Proof. apply countBarriers_mapValues. Qed.

(** Either interchange adds to the barriers of the tree exactly the one it
    creates, if it creates one. *)
Lemma interchange_barriers (withBarrier : bool) (P : Operation) (l g : Layer)
    (above : list Layer) (res : LogicalResult) (r : Operation) :
  interchange withBarrier P l g above = Some (res, r) ->
  countBarriers r
  = (if withBarrier then 1 else 0)
    + countBarriers (plugAbove above (fillLayer g (fillLayer l P))).
Proof.
  unfold interchange. intros H.
  destruct (frontBlock P) as [nfront|] eqn:EP; [|discriminate].
  destruct (getTerminator nfront) as [yield|] eqn:Ey; [|discriminate].
  destruct (frontBlock (fillLayerWith l [])) as [body|] eqn:Eb; [|discriminate].
  destruct (ops body) as [|b0 bs] eqn:Ebody; [discriminate|].
  cbn [isNil] in H.
  match type of H with (if ?x then _ else _) = _ => destruct x; [discriminate|] end.
  injection H as _ <-.
  change (plugAbove above (fillLayerWith g [?x])) with (plugAbove (g :: above) x).
  change (plugAbove above (fillLayer g ?x)) with (plugAbove (g :: above) x).
  apply countBarriers_plugAbove.
  unfold getTerminator in Ey.
  (* the parallel region *)
  match goal with |- countBarriers (setFrontBlock P ?b) = _ =>
    pose proof (@countBarriers_setFrontBlock P nfront b EP) as HP end.
  (* the loop or conditional *)
  match type of HP with context [setFrontBlock (fillLayerWith l []) ?b] =>
    pose proof (@countBarriers_setFrontBlock (fillLayerWith l []) body b Eb) as HF end.
  unfold fillLayer. rewrite (countBarriers_fillLayerWith l [P]).
  cbn [ops args app] in HP, HF.
  unfold barriersIn at 2 in HP. cbn [map list_sum fold_right] in HP.
  rewrite countBarriers_clone in HP.
  rewrite Ebody in HF.
  assert (Hbody : b0 :: bs <> []) by discriminate.
  destruct withBarrier.
  - destruct (lastOp_nonempty Hbody) as [t Et].
    assert (Hb2 : insertBeforeTerminator barrierOp
                    (mkBlock (args body) (ops nfront ++ b0 :: bs))
                  = mkBlock (args body)
                      (ops nfront ++ removelast (b0 :: bs) ++ [barrierOp; t])).
    { unfold insertBeforeTerminator. cbn [ops args].
      rewrite (lastOp_app (ops nfront) Hbody), Et.
      rewrite (removelast_app (ops nfront) Hbody), <- app_assoc. reflexivity. }
    rewrite Hb2 in HP, HF |- *. cbn [ops args] in HP, HF |- *.
    pose proof (@barriersIn_eraseLast (ops nfront)
                  (removelast (b0 :: bs) ++ [barrierOp; t]) yield Ey) as HE.
    pose proof (@lastOp_removelast _ _ Et) as Hsplit.
    assert (Hsum : barriersIn (b0 :: bs)
                   = barriersIn (removelast (b0 :: bs)) + countBarriers t).
    { rewrite Hsplit at 1. rewrite barriersIn_app. unfold barriersIn; simpl. lia. }
    rewrite barriersIn_app in HE.
    unfold barriersIn at 4 in HE. cbn [map list_sum fold_right] in HE.
    change (countBarriers barrierOp) with 1 in HE.
    unfold barriersIn at 1. cbn [map list_sum fold_right].
    lia.
  - cbn [ops args] in HP, HF |- *.
    pose proof (@barriersIn_eraseLast (ops nfront) (b0 :: bs) yield Ey) as HE.
    unfold barriersIn at 1. cbn [map list_sum fold_right].
    lia.
Qed.

(** ParallelIfInterchange creates no barrier, wherever the parallel region
    was. *)
Lemma if_interchange_no_barrier (c : Cursor) (r : Operation) :
  ParallelIfInterchange c = Some (success, r) ->
  countBarriers r = countBarriers (plug c).
Proof.
  unfold ParallelIfInterchange. intros H.
  destruct (layers c) as [|l above] eqn:Hlay; [discriminate|].
  destruct (negb (_ =? 2)); [discriminate|].
  destruct (negb (isIf _) || _); [discriminate|].
  destruct above as [|g above']; [discriminate|].
  apply interchange_barriers in H. rewrite H.
  unfold plug. rewrite Hlay. reflexivity.
Qed.

(** ParallelForInterchange creates one. *)
Lemma for_interchange_one_barrier (c : Cursor) (r : Operation) :
  ParallelForInterchange c = Some (success, r) ->
  countBarriers r = S (countBarriers (plug c)).
Proof.
  unfold ParallelForInterchange. intros H.
  destruct (layers c) as [|l above] eqn:Hlay; [discriminate|].
  destruct (negb (_ =? 2)); [discriminate|].
  destruct (negb (isFor _) || _); [discriminate|].
  destruct above as [|g above']; [discriminate|].
  apply interchange_barriers in H. rewrite H.
  unfold plug. rewrite Hlay. reflexivity.
Qed.

(** ** ParallelIfInterchange: the else branch *)

(** C3, at the failing input: the parallel region is alone in the else
    branch; the rule succeeds and its body lands in the then branch, in front
    of what was there. *)
Theorem if_interchange_else_branch :
  ParallelIfInterchange (cursorAt parallelInElse [(0, 0, 0); (1, 0, 0)])
  = Some (success, parallelInElse_rewritten).
Proof. reflexivity. Qed.


(** ** CombineParallel: a result used by the parallel region itself *)

(** C4, at the failing input: the constant is the clause operand of the
    parallel region behind it.  The test of lines 100-105 accepts it, the
    rule moves it into the region, and the region's operand is then defined
    inside the region: in the tree given every use is dominated by its
    definition, in the tree returned not. *)
Theorem CombineParallel_moves_own_operand :
  let c := cursorAt clauseFromConstant [(0, 0, 1)] in
  onlyReadsAndUsedInside c (constantOp 1) = true
  /\ CombineParallel c = Some (success, clauseFromConstant_hoisted)
  /\ usesDominated [] clauseFromConstant = true
  /\ usesDominated [] clauseFromConstant_hoisted = false.
Proof. repeat split. Qed.

(** C7, at the failing input: the scan of CombineParallel relocates the load
    whose result is the clause operand of the parallel region behind it,
    stops at the store in front of the load, and reports success.  The rule
    has changed the tree, and the change is not a legal one: in the tree
    given every use is dominated by its definition, in the tree returned the
    operand of the parallel region is defined inside the region. *)
Theorem success_without_legal_rewrite :
  let c := cursorAt clauseFromLoad [(0, 0, 2)] in
  plug c = clauseFromLoad
  /\ leftsOf c = [loadOp 0 1; storeTo 0 0]
  /\ onlyReadsAndUsedInside c (loadOp 0 1) = true
  /\ CombineParallel c = Some (success, clauseFromLoad_hoisted)
  /\ clauseFromLoad_hoisted <> clauseFromLoad
  /\ usesDominated [] clauseFromLoad = true
  /\ usesDominated [] clauseFromLoad_hoisted = false.
Proof.
  cbv zeta. repeat (split; [reflexivity|]).
  split; [discriminate|]. split; reflexivity.
Qed.

(** What the scan does with a predecessor that is not a parallel region:
    it relocates it when the test of lines 100-105 holds, and only then. *)
Lemma scanPrev_predecessor (fuel : nat) (changed : bool) (c : Cursor)
    (prevOp : Operation) (prevIter : list Operation) :
  leftsOf c = prevOp :: prevIter ->
  isParallel prevOp = false ->
  scanPrev (S fuel) changed c
  = if onlyReadsAndUsedInside c prevOp
    then match relocate c with
         | Some c' =>
           match prevIter with
           | [] => Some (success, plug c')
           | _ :: _ => scanPrev fuel true c'
           end
         | None => None
         end
    else Some (changed, plug c).
Proof.
  intros Hl Hp. apply leftsOf_layers in Hl as (l & above & Hlay & Hlefts).
  simpl. rewrite Hlay, Hlefts, Hp. reflexivity.
Qed.

(** What line 100-105 test, spelled out: the operation is read-only and each
    user of each result is the parallel region or lies inside it. *)
Lemma onlyReadsAndUsedInside_spec (c : Cursor) (prevOp : Operation) :
  onlyReadsAndUsedInside c prevOp = true
  <-> isReadOnly prevOp = true
      /\ forall v user, In v (results prevOp) -> In user (getUsers (plug c) v) ->
           isAncestor (cursorPath c) user = true.
Proof.
  unfold onlyReadsAndUsedInside. rewrite andb_true_iff, forallb_forall.
  split; intros [Hro Hall]; split; try exact Hro.
  - intros v user Hv Hu. specialize (Hall v Hv).
    rewrite forallb_forall in Hall. exact (Hall user Hu).
  - intros v Hv. apply forallb_forall. intros user Hu. exact (Hall v user Hv Hu).
Qed.

(** ** The pass as a whole *)

(** C8, at the failing input: the pass stops before the cap because no rule
    matches any more, and the tree it leaves has a use that its definition
    does not dominate, while the tree it was given has none. *)
Theorem pass_breaks_dominance :
  applyPatternsAndFoldGreedily maxIterations clauseFromConstant
  = Some (true, clauseFromConstant_hoisted)
  /\ runOnOperation clauseFromConstant = Some clauseFromConstant_hoisted
  /\ usesDominated [] clauseFromConstant = true
  /\ usesDominated [] clauseFromConstant_hoisted = false.
Proof. repeat split. Qed.

Lemma driver_stops_at_fixpoint (n : nat) :
  forall root root',
    applyPatternsAndFoldGreedily n root = Some (true, root') ->
    firstRewrite root' (positions root') = Some None.
Proof.
  induction n as [|n IH]; intros root root' H; simpl in H; [discriminate|].
  destruct (firstRewrite root (positions root)) as [[r|]|] eqn:E.
  - apply IH in H. exact H.
  - injection H as <-. exact E.
  - discriminate.
Qed.

(** C9, as amended: when the first run of the pass stopped because no rule
    matched, a second run on its output returns that output. *)
Theorem pass_idempotent_at_fixpoint (root root' : Operation) :
  applyPatternsAndFoldGreedily maxIterations root = Some (true, root') ->
  runOnOperation root' = Some root'.
Proof.
  intros H. apply driver_stops_at_fixpoint in H.
  unfold runOnOperation, maxIterations. simpl applyPatternsAndFoldGreedily.
  rewrite H. reflexivity.
Qed.

(** C9, counterexample: with 48 loops around the parallel region the first
    run stops at the cap with one loop still outside, and the second run
    changes its output. *)
Lemma pass_not_idempotent_at_cap :
  exists r1 r2,
    runOnOperation deepNest = Some r1
    /\ runOnOperation r1 = Some r2
    /\ firstOpName r1 = Some scf_for
    /\ firstOpName r2 = Some omp_parallel
    /\ r1 <> r2.
Proof.
  assert (H : match runOnOperation deepNest with
              | Some r1 =>
                match runOnOperation r1 with
                | Some r2 =>
                  firstOpName r1 = Some scf_for
                  /\ firstOpName r2 = Some omp_parallel
                | None => False
                end
              | None => False
              end) by (vm_compute; split; reflexivity).
  destruct (runOnOperation deepNest) as [r1|]; [|contradiction].
  destruct (runOnOperation r1) as [r2|] eqn:E2; [|contradiction].
  destruct H as [H1 H2].
  exists r1, r2.
  split; [reflexivity|]. split; [exact E2|].
  split; [exact H1|]. split; [exact H2|].
  intros Heq. rewrite Heq, H2 in H1. discriminate.
Qed.

(** ** Cursors and positions *)

Lemma splitAt_Some (A : Type) (n : nat) :
  forall (l before after : list A) (x : A),
    splitAt n l = Some (before, x, after) ->
    l = before ++ x :: after /\ length before = n.
Proof.
  induction n as [|n IH]; intros l before after x H; destruct l as [|y l];
    simpl in H; try discriminate.
  - injection H as <- <- <-. split; reflexivity.
  - destruct (splitAt n l) as [[[b z] a]|] eqn:E; [|discriminate].
    injection H as <- <- <-. apply IH in E as [-> <-]. split; reflexivity.
Qed.

Lemma splitAt_length (A : Type) (before after : list A) (x : A) :
  splitAt (length before) (before ++ x :: after) = Some (before, x, after).
Proof.
  induction before as [|y before IH]; simpl; [reflexivity|].
  rewrite IH. reflexivity.
Qed.

(** Going down keeps the tree and extends the position. *)
Lemma down_plug (r b i : nat) (c c' : Cursor) :
  down r b i c = Some c' ->
  plug c' = plug c /\ cursorPath c' = cursorPath c ++ [(r, b, i)].
Proof.
  unfold down. intros H.
  destruct (splitAt r (regions (focus c))) as [[[regsL region] regsR]|] eqn:Er;
    [|discriminate].
  destruct (splitAt b region) as [[[blksL block] blksR]|] eqn:Eb; [|discriminate].
  destruct (splitAt i (ops block)) as [[[before child] after]|] eqn:Ei;
    [|discriminate].
  injection H as <-.
  apply splitAt_Some in Er as [Er Hr], Eb as [Eb Hb], Ei as [Ei Hi].
  unfold plug, cursorPath, stepOf; simpl. split.
  - f_equal. unfold fillLayer, fillLayerWith; simpl.
    rewrite rev_involutive. simpl. rewrite <- Ei.
    destruct block as [bargs bops]; simpl. rewrite <- Eb.
    destruct (focus c) as [n0 r0 e0 os0 rs0 regs0]; simpl in *.
    rewrite Er. reflexivity.
  - subst r b i. rewrite length_rev. reflexivity.
Qed.

Lemma focusFrom_plug (p : OpPath) :
  forall c c',
    focusFrom p c = Some c' ->
    plug c' = plug c /\ cursorPath c' = cursorPath c ++ p.
Proof.
  induction p as [|[[r b] i] p IH]; intros c c' H; simpl in H.
  - injection H as <-. rewrite app_nil_r. split; reflexivity.
  - destruct (down r b i c) as [c1|] eqn:E; [|discriminate].
    apply down_plug in E as [E1 E2]. apply IH in H as [H1 H2].
    rewrite H1, E1, H2, E2, <- app_assoc. split; reflexivity.
Qed.

(** A cursor obtained from a position points into the tree it was obtained
    from, at that position. *)
Lemma focusAt_plug (root : Operation) (p : OpPath) (c : Cursor) :
  focusAt root p = Some c -> plug c = root /\ cursorPath c = p.
Proof. intros H. apply focusFrom_plug in H. exact H. Qed.

Lemma focusFrom_app (p q : OpPath) :
  forall c,
    focusFrom (p ++ q) c
    = match focusFrom p c with
      | Some c' => focusFrom q c'
      | None => None
      end.
Proof.
  induction p as [|[[r b] i] p IH]; intros c; simpl; [reflexivity|].
  destruct (down r b i c); [apply IH | reflexivity].
Qed.

Lemma down_fillLayer (l : Layer) (o : Operation) (base : list Layer) :
  down (length (l_regsL l)) (length (l_blksL l)) (length (l_lefts l))
       (mkCursor (fillLayer l o) base)
  = Some (mkCursor o (l :: base)).
Proof.
  unfold down, fillLayer, fillLayerWith; simpl.
  rewrite !splitAt_length. simpl.
  rewrite <- (length_rev (l_lefts l)), splitAt_length, rev_involutive.
  destruct l; reflexivity.
Qed.

Lemma focusFrom_plugAbove (ls : list Layer) :
  forall o base,
    focusFrom (rev (map stepOf ls)) (mkCursor (plugAbove ls o) base)
    = Some (mkCursor o (ls ++ base)).
Proof.
  induction ls as [|l ls IH]; intros o base; [reflexivity|].
  simpl. rewrite focusFrom_app.
  change (plugAbove (l :: ls) o) with (plugAbove ls (fillLayer l o)).
  rewrite IH. unfold stepOf; simpl. rewrite down_fillLayer. reflexivity.
Qed.

(** Every cursor is the one of its position in its tree. *)
Lemma focusAt_cursorPath (c : Cursor) :
  focusAt (plug c) (cursorPath c) = Some c.
Proof.
  unfold focusAt, plug, cursorPath. rewrite focusFrom_plugAbove, app_nil_r.
  destruct c; reflexivity.
Qed.

(** ** The fuel of the scan *)

(** More fuel than there are operations in front of the parallel region
    changes nothing: the loop does not run out of it. *)
Lemma scanPrev_fuel (fuel : nat) :
  forall changed c,
    length (leftsOf c) <= fuel ->
    scanPrev fuel changed c = scanPrev (length (leftsOf c)) changed c.
Proof.
  induction fuel as [|fuel IH]; intros changed c Hle.
  - replace (length (leftsOf c)) with 0 by lia. reflexivity.
  - destruct (leftsOf c) as [|prevOp prevIter] eqn:Hl.
    + simpl. destruct (layers c) as [|l above] eqn:Hlay; [reflexivity|].
      unfold leftsOf in Hl. rewrite Hlay in Hl. rewrite Hl. reflexivity.
    + pose proof Hl as Hl'.
      apply leftsOf_layers in Hl' as (l & above & Hlay & Hlefts).
      simpl length. simpl scanPrev. rewrite Hlay, Hlefts.
      destruct (isParallel prevOp); [reflexivity|].
      destruct (onlyReadsAndUsedInside c prevOp); [|reflexivity].
      destruct (relocate c) as [c'|] eqn:Hr; [|reflexivity].
      destruct prevIter as [|y ys]; [reflexivity|].
      pose proof (@relocate_lefts _ _ _ _ Hl Hr) as Hlen.
      rewrite IH by (rewrite Hlen; simpl in Hle |- *; lia).
      rewrite Hlen. reflexivity.
Qed.

(** ** The classifier on fully annotated operations *)

Lemma forallb_ext_guarded (A : Type) (h f g : A -> bool) (l : list A) :
  Forall (fun x => h x = true -> f x = g x) l ->
  forallb h l = true ->
  forallb f l = forallb g l.
Proof.
  induction 1 as [|x l Hx _ IH]; simpl; [reflexivity|].
  intros H. apply andb_true_iff in H as [H1 H2].
  rewrite (Hx H1), (IH H2). reflexivity.
Qed.

(** On fully annotated operations the classifier is the property of the
    specification. *)
Lemma isReadOnly_fully_annotated (op : Operation) :
  fullyAnnotated op = true -> isReadOnly op = performsOnlyReads op.
Proof.
  induction op as [n r e os rs regs IH] using Operation_nested_ind.
  rewrite isReadOnly_unfold. simpl. intros H.
  apply andb_true_iff in H as [H Hnested].
  apply andb_true_iff in H as [He Hr].
  destruct e as [effects|]; [|discriminate].
  assert (Heq : forallb (fun region : Region =>
                  forallb (fun block => forallb isReadOnly (ops block)) region) regs
                = forallb (fun region : Region =>
                  forallb (fun block => forallb performsOnlyReads (ops block)) region) regs).
  { revert Hnested. apply forallb_ext_guarded.
    eapply Forall_impl; [|exact IH]. intros region Hregion.
    apply forallb_ext_guarded.
    eapply Forall_impl; [|exact Hregion]. intros b Hb.
    apply forallb_ext_guarded. exact Hb. }
  rewrite <- Heq. clear Heq.
  remember (forallb (fun region : Region =>
              forallb (fun block => forallb isReadOnly (ops block)) region) regs)
    as nested.
  destruct r; simpl.
  - destruct nested; simpl; [rewrite andb_true_r | rewrite andb_false_r];
      reflexivity.
  - simpl in Hr. destruct regs; [|discriminate]. subst nested. simpl.
    rewrite andb_true_r. reflexivity.
Qed.

(** ** The driver and its cap *)

(** The driver returns after at most [n] iterations with a rewrite; it
    reports a fixpoint only where no rule matches, and otherwise has used all
    [n] iterations and returns what they have produced. *)
Lemma driver_within_cap (n : nat) :
  forall root converged root',
    applyPatternsAndFoldGreedily n root = Some (converged, root') ->
    exists k,
      k <= n
      /\ RewriteSteps k root root'
      /\ (converged = true -> firstRewrite root' (positions root') = Some None)
      /\ (converged = false -> k = n).
Proof.
  induction n as [|n IH]; intros root converged root' H; simpl in H.
  - injection H as <- <-. exists 0.
    split; [lia|]. split; [constructor|]. split; [discriminate | reflexivity].
  - destruct (firstRewrite root (positions root)) as [[r|]|] eqn:E.
    + apply IH in H as (k & Hk & Hsteps & Hconv & Hcap).
      exists (S k).
      split; [lia|]. split; [econstructor; eassumption|].
      split; [exact Hconv|].
      intros Hc. rewrite (Hcap Hc). reflexivity.
    + injection H as <- <-. exists 0.
      split; [lia|]. split; [constructor|].
      split; [intros _; exact E | discriminate].
    + discriminate.
Qed.

(** ** The theorems at sample programs *)

Lemma isReadOnly_iff_ReadOnly_witness : isReadOnly (loadOp 0 1) = true.
Proof.
  apply (proj2 (isReadOnly_iff_ReadOnly (loadOp 0 1))).
  apply ReadOnly_intro with (effects := [Read]).
  - reflexivity.
  - repeat constructor.
  - intros H; discriminate H.
Defined.

Lemma merge_gives_body_barrier_body_witness :
  CombineParallel (cursorAt twoParallels [(0, 0, 2)])
  = Some (success, twoParallels_merged).
Proof.
  pose (c := cursorAt twoParallels [(0, 0, 2)]).
  assert (Hreach : ScanReaches 1 c (relocated c)).
  { apply ScanReaches_move
      with (c1 := relocated c) (prevOp := loadOp 0 1)
           (prevIter := [parallelOp [] [storeTo 0 0; terminatorOp]]).
    - reflexivity.
    - discriminate.
    - reflexivity.
    - reflexivity.
    - reflexivity.
    - apply ScanReaches_here. }
  exact (@merge_gives_body_barrier_body c (relocated c) 1
           twoParallels [(0, 0, 2)]
           (topLayer (relocated c)) []
           (parallelOp [] [storeTo 0 0; terminatorOp]) []
           [] [storeTo 0 0] terminatorOp
           [loadOp 0 3; storeTo 3 0; terminatorOp]
           eq_refl eq_refl Hreach eq_refl eq_refl eq_refl eq_refl eq_refl
           eq_refl eq_refl).
Defined.


Lemma CombineParallel_guards_witness :
  CombineParallel (cursorAt nestedParallels [(0, 0, 1)])
  = Some (failure, nestedParallels).
Proof.
  pose (c := cursorAt nestedParallels [(0, 0, 1)]).
  refine (@CombineParallel_guards c (topLayer c) [] eq_refl
            (or_intror (ex_intro _ nestedParallels
               (ex_intro _ [(0, 0, 1)] (conj eq_refl _))))).
  intros q other Hin Hp. simpl in Hin.
  repeat (destruct Hin as [Hin | Hin];
          [injection Hin as <- <-; first [reflexivity | discriminate Hp] |]).
  contradiction.
Defined.

Lemma failure_mutates_nothing_witness :
  CombineParallel (cursorAt loadBehindStore [(0, 0, 2)])
  = Some (success,
          funcOp [0]
            [ storeTo 0 0;
              parallelOp [] [loadOp 0 3; storeTo 3 0; terminatorOp];
              parallelOp [] [terminatorOp];
              returnOp ])
  /\ plug (cursorAt loadBehindStore [(0, 0, 3)]) = loadBehindStore.
Proof.
  pose (c := cursorAt loadBehindStore [(0, 0, 2)]).
  assert (Hreach : ScanReaches 1 c (relocated c)).
  { apply ScanReaches_move
      with (c1 := relocated c) (prevOp := loadOp 0 1) (prevIter := [storeTo 0 0]).
    - reflexivity.
    - discriminate.
    - reflexivity.
    - reflexivity.
    - reflexivity.
    - apply ScanReaches_here. }
  split.
  - exact (proj1 (proj2 (failure_mutates_nothing c) 1 (relocated c)
                    (storeTo 0 0) [] loadBehindStore [(0, 0, 2)]
                    eq_refl eq_refl Hreach eq_refl eq_refl eq_refl)).
  - symmetry.
    exact (proj1 (failure_mutates_nothing (cursorAt loadBehindStore [(0, 0, 3)]))
             loadBehindStore (or_intror (or_introl eq_refl))).
Defined.

Lemma pass_idempotent_at_fixpoint_witness :
  runOnOperation twoParallels_merged = Some twoParallels_merged.
Proof.
  exact (@pass_idempotent_at_fixpoint twoParallels twoParallels_merged eq_refl).
Defined.

Lemma interfaceless_blocks_hoisting_witness :
  isReadOnly opaqueOp = false
  /\ scanPrev 2 false (cursorAt opaqueBetween [(0, 0, 2)])
     = Some (failure, opaqueBetween).
Proof.
  pose (c := cursorAt opaqueBetween [(0, 0, 2)]).
  split.
  - exact (proj1 (interfaceless_blocks_hoisting opaqueOp) eq_refl).
  - exact (proj2 (proj2 (interfaceless_blocks_hoisting opaqueOp))
             1 false c (topLayer c) [] [parallelOp [] [terminatorOp]]
             eq_refl eq_refl eq_refl eq_refl).
Defined.

(** * Further properties *)

(** ** The classifier *)

(** An operation that declares an effect other than a read - a write, but
    also an allocation or a free - is not read-only. *)
Theorem isReadOnly_rejects_other_effects (op : Operation)
    (effects : list Effect) (e : Effect) :
  memoryEffects op = Some effects ->
  In e effects ->
  e <> Read ->
  isReadOnly op = false.
Proof.
  intros Heff Hin Hne. rewrite isReadOnly_unfold, Heff.
  destruct (_ && _); [reflexivity|].
  apply not_true_is_false. intros H.
  rewrite forallb_forall in H. apply Hne, isRead_iff, H, Hin.
Qed.

Lemma isReadOnly_fillLayer (l : Layer) (o : Operation) :
  l_rec l = true -> isReadOnly o = false -> isReadOnly (fillLayer l o) = false.
Proof.
  intros Hrec Ho. rewrite isReadOnly_unfold.
  unfold fillLayer, fillLayerWith. cbn [hasRecursiveSideEffects regions memoryEffects].
  rewrite Hrec.
  replace (forallb _ _) with false; [reflexivity|].
  symmetry. rewrite forallb_app. cbn [forallb].
  rewrite forallb_app. cbn [forallb ops].
  rewrite !forallb_app. cbn [forallb]. rewrite Ho.
  cbn. rewrite !andb_false_r. reflexivity.
Qed.

(** An operation that is not read-only makes every operation around it that
    reaches it through recursive-side-effects traits not read-only. *)
Theorem isReadOnly_nested_blocks (c : Cursor) :
  Forall (fun l => l_rec l = true) (layers c) ->
  isReadOnly (focus c) = false ->
  isReadOnly (plug c) = false.
Proof.
  unfold plug. destruct c as [o ls]. cbn [focus layers].
  revert o. induction ls as [|l ls IH]; intros o Hall Ho; [exact Ho|].
  inversion Hall as [|? ? Hl Hls]; subst.
  change (plugAbove (l :: ls) o) with (plugAbove ls (fillLayer l o)).
  apply IH; [exact Hls|]. apply isReadOnly_fillLayer; assumption.
Qed.

Lemma forallb_map_guarded (A B : Type) (f : B -> bool) (f' : A -> bool)
    (g : A -> B) (l : list A) :
  Forall (fun x => f (g x) = f' x) l ->
  forallb f (map g l) = forallb f' l.
Proof.
  induction 1 as [|x l Hx _ IH]; simpl; [reflexivity|].
  rewrite Hx, IH. reflexivity.
Qed.

Lemma isReadOnly_mapValues (fd fu : Value -> Value) (op : Operation) :
  isReadOnly (mapValues fd fu op) = isReadOnly op.
Proof.
  induction op as [n r e os rs regs IH] using Operation_nested_ind.
  rewrite !isReadOnly_unfold. cbn [mapValues hasRecursiveSideEffects regions
    memoryEffects name operands results].
  assert (Hnested :
    forallb (fun region : Region =>
       forallb (fun block => forallb isReadOnly (ops block)) region)
      (map (fun region : Region =>
              map (fun b => mkBlock (map fd (args b)) (map (mapValues fd fu) (ops b)))
                  region) regs)
    = forallb (fun region : Region =>
       forallb (fun block => forallb isReadOnly (ops block)) region) regs).
  { apply forallb_map_guarded.
    eapply Forall_impl; [|exact IH]. intros region Hregion.
    apply forallb_map_guarded.
    eapply Forall_impl; [|exact Hregion]. intros b Hb. cbn [ops].
    apply forallb_map_guarded. exact Hb. }
  rewrite Hnested. reflexivity.
Qed.

(** A clone is classified as its original. *)
Theorem isReadOnly_clone (n : nat) (op : Operation) :
  isReadOnly (clone n op) = isReadOnly op.
Proof. apply isReadOnly_mapValues. Qed.

(** ** Counting operations by kind *)

Lemma list_sum_cons' (x : nat) (l : list nat) :
  list_sum (x :: l) = x + list_sum l.
Proof. reflexivity. Qed.

Section WeightLemmas.
Variable w : OpName -> nat.

Lemma weight_unfold (o : Operation) :
  weight w o
  = w (name o)
    + list_sum (map (fun region : Region =>
         list_sum (map (fun b => weightOps w (ops b)) region))
       (regions o)).
Proof. destruct o; reflexivity. Qed.

Lemma weightOps_app (xs ys : list Operation) :
  weightOps w (xs ++ ys) = weightOps w xs + weightOps w ys.
Proof. unfold weightOps. rewrite map_app, list_sum_app. reflexivity. Qed.

Lemma weightOps_cons (x : Operation) (xs : list Operation) :
  weightOps w (x :: xs) = weight w x + weightOps w xs.
Proof. reflexivity. Qed.

Lemma weightOps_rev (xs : list Operation) :
  weightOps w (rev xs) = weightOps w xs.
Proof.
  induction xs as [|x xs IH]; [reflexivity|].
  simpl rev. rewrite weightOps_app, IH, !weightOps_cons.
  unfold weightOps at 2; simpl. lia.
Qed.

Lemma weight_fillLayerWith (l : Layer) (mid : list Operation) :
  weight w (fillLayerWith l mid)
  = weightOps w (l_lefts l) + weightOps w mid + layerWeight w l.
Proof.
  unfold layerWeight. rewrite !weight_unfold.
  unfold fillLayerWith, setLefts. cbn [name regions l_name l_regsL l_blksL
    l_blksR l_regsR l_args l_lefts l_rights l_rec l_eff l_operands l_results rev app].
  repeat (rewrite !map_app, !list_sum_app; cbn [map list_sum fold_right ops app]).
  rewrite !weightOps_app, weightOps_rev.
  change (weightOps w []) with 0. lia.
Qed.

Lemma weight_plugAbove (ls : list Layer) :
  forall o o' k,
    weight w o' = k + weight w o ->
    weight w (plugAbove ls o') = k + weight w (plugAbove ls o).
Proof.
  induction ls as [|l ls IH]; intros o o' k H; [exact H|].
  change (plugAbove (l :: ls) ?x) with (plugAbove ls (fillLayer l x)).
  apply IH. unfold fillLayer.
  rewrite (weight_fillLayerWith l [o']), (weight_fillLayerWith l [o]).
  rewrite !weightOps_cons. change (weightOps w []) with 0. lia.
Qed.

Lemma weight_setFrontBlock (o : Operation) (b b' : Block Operation) :
  frontBlock o = Some b ->
  weight w (setFrontBlock o b') + weightOps w (ops b)
  = weight w o + weightOps w (ops b').
Proof.
  unfold frontBlock, setFrontBlock.
  destruct (regions o) as [|[|b0 bs] rs] eqn:E; try discriminate.
  intros H; injection H as ->. rewrite (weight_unfold o), weight_unfold, E.
  unfold withRegions. cbn [name regions map]. rewrite !list_sum_cons'. lia.
Qed.

Lemma weight_withoutFrontBlock (o : Operation) (b : Block Operation) :
  frontBlock o = Some b ->
  weight w (withoutFrontBlock o) + weightOps w (ops b) = weight w o.
Proof.
  unfold frontBlock, withoutFrontBlock.
  destruct (regions o) as [|[|b0 bs] rs] eqn:E; try discriminate.
  intros H; injection H as ->. rewrite (weight_unfold o), weight_unfold, E.
  unfold withRegions. cbn [name regions map]. rewrite !list_sum_cons'. lia.
Qed.

Lemma weightOps_eraseLast (xs zs : list Operation) (y : Operation) :
  lastOp xs = Some y ->
  weightOps w (eraseAt (length xs - 1) (xs ++ zs)) + weight w y
  = weightOps w xs + weightOps w zs.
Proof.
  induction xs as [|x xs IH]; [discriminate|].
  destruct xs as [|x' xs'].
  - simpl. intros H; injection H as ->. rewrite weightOps_cons.
    change (weightOps w []) with 0. lia.
  - intros H. change (lastOp (x :: x' :: xs')) with (lastOp (x' :: xs')) in H.
    specialize (IH H). simpl length in *.
    replace (S (S (length xs')) - 1) with (S (length xs')) by lia.
    replace (S (length xs') - 1) with (length xs') in IH by lia.
    cbn [app eraseAt] in IH |- *. rewrite !weightOps_cons in IH |- *.
    rewrite !weightOps_cons. lia.
Qed.

Lemma weightOps_removelast (xs : list Operation) (t : Operation) :
  lastOp xs = Some t ->
  weightOps w (removelast xs) + weight w t = weightOps w xs.
Proof.
  intros H. rewrite (@lastOp_removelast _ _ H) at 2.
  rewrite weightOps_app, weightOps_cons. change (weightOps w []) with 0. lia.
Qed.

Lemma weight_mapValues (fd fu : Value -> Value) (o : Operation) :
  weight w (mapValues fd fu o) = weight w o.
Proof.
  induction o as [n r e os rs regs IH] using Operation_nested_ind.
  simpl. f_equal. rewrite map_map. f_equal.
  apply map_ext_in. intros region Hin. rewrite Forall_forall in IH.
  specialize (IH region Hin). rewrite map_map. f_equal.
  apply map_ext_in. intros b Hb. rewrite Forall_forall in IH.
  specialize (IH b Hb). simpl. rewrite map_map. f_equal.
  apply map_ext_in. intros x Hx. rewrite Forall_forall in IH. exact (IH x Hx).
Qed.

Lemma weightOps_mapValues (fd fu : Value -> Value) (xs : list Operation) :
  weightOps w (map (mapValues fd fu) xs) = weightOps w xs.
Proof.
  unfold weightOps. rewrite map_map. f_equal.
  apply map_ext. intros x. apply weight_mapValues.
Qed.
End WeightLemmas.

(** ** Replacing uses around a cursor *)

Lemma mapValues_regions (fu : Value -> Value) (regs : list Region) :
  map (fun region : Region =>
         map (fun b => mkBlock (map (fun v : Value => v) (args b))
                               (map (mapValues (fun v => v) fu) (ops b)))
             region) regs
  = map (map (mapBlock (mapValues (fun v => v) fu))) regs.
Proof.
  apply map_ext. intros region. apply map_ext. intros b.
  unfold mapBlock. rewrite map_id. reflexivity.
Qed.

Lemma fillLayer_mapLayerUses (fu : Value -> Value) (l : Layer) (o : Operation) :
  fillLayer (mapLayerUses fu l) (mapValues (fun v => v) fu o)
  = mapValues (fun v => v) fu (fillLayer l o).
Proof.
  unfold fillLayer, fillLayerWith, mapLayerUses.
  cbn [l_name l_rec l_eff l_operands l_results l_regsL l_blksL l_blksR l_regsR
       l_args l_lefts l_rights].
  cbn [mapValues name hasRecursiveSideEffects memoryEffects operands results regions].
  rewrite map_id, mapValues_regions.
  f_equal. symmetry.
  etransitivity; [apply map_app|]. f_equal. cbn [map]. f_equal.
  etransitivity; [apply map_app|]. f_equal. cbn [map]. f_equal.
  unfold mapBlock at 1. cbn [args ops]. f_equal.
  rewrite !map_app, map_rev. reflexivity.
Qed.

(** Replacing uses layer by layer is replacing them in the whole tree. *)
Lemma plug_mapCursorUses (fu : Value -> Value) (c : Cursor) :
  plug (mapCursorUses fu c) = mapValues (fun v => v) fu (plug c).
Proof.
  unfold plug, mapCursorUses. destruct c as [o ls]. cbn [focus layers].
  revert o. induction ls as [|l ls IH]; intros o; [reflexivity|].
  cbn [map]. change (plugAbove (?x :: ?xs) ?y) with (plugAbove xs (fillLayer x y)).
  rewrite fillLayer_mapLayerUses. apply IH.
Qed.

(** ** What the rewrites keep *)

Lemma setLefts_setLefts (l : Layer) (xs ys : list Operation) :
  setLefts (setLefts l xs) ys = setLefts l ys.
Proof. reflexivity. Qed.

Section Kept.
Variable w : OpName -> nat.

Lemma weight_plugAbove_both (ls : list Layer) :
  forall o o' j k,
    weight w o' + j = k + weight w o ->
    weight w (plugAbove ls o') + j = k + weight w (plugAbove ls o).
Proof.
  induction ls as [|l ls IH]; intros o o' j k H; [exact H|].
  change (plugAbove (l :: ls) ?x) with (plugAbove ls (fillLayer l x)).
  apply IH. unfold fillLayer.
  rewrite (weight_fillLayerWith w l [o']), (weight_fillLayerWith w l [o]).
  rewrite !weightOps_cons. change (weightOps w []) with 0. lia.
Qed.

Lemma weight_clone (n : nat) (o : Operation) :
  weight w (clone n o) = weight w o.
Proof. apply weight_mapValues. Qed.

Lemma weight_relocate (c c' : Cursor) :
  relocate c = Some c' ->
  weight w (plug c') = weight w (plug c).
Proof.
  unfold relocate. intros H.
  destruct (layers c) as [|l above] eqn:Hlay; [discriminate|].
  destruct (l_lefts l) as [|prevOp prevIter] eqn:Hlefts; [discriminate|].
  destruct (frontBlock (focus c)) as [front|] eqn:Hfront; [|discriminate].
  cbn [mapCursorUses layers focus map] in H. injection H as <-.
  set (fu := replaceUses (results prevOp) (freshBase (plug c))).
  set (f := mapValues (fun v : Value => v) fu).
  set (next1 := setFrontBlock (focus c)
                  (mkBlock (args front)
                     (clone (freshBase (plug c)) prevOp :: ops front))).
  (* the tree with the clone in place and the uses replaced *)
  assert (H2 : weight w (plug (mapCursorUses fu (mkCursor next1 (l :: above))))
               = weight w prevOp + weight w (plug c)).
  { rewrite plug_mapCursorUses, weight_mapValues.
    unfold plug. rewrite Hlay. cbn [focus layers].
    apply weight_plugAbove.
    pose proof (@weight_setFrontBlock w (focus c) front
                  (mkBlock (args front)
                     (clone (freshBase (plug c)) prevOp :: ops front)) Hfront) as Hs.
    cbn [ops] in Hs. rewrite weightOps_cons, weight_clone in Hs.
    fold next1 in Hs. lia. }
  (* the original, erased *)
  assert (H3 : weight w (plug (mapCursorUses fu (mkCursor next1 (l :: above))))
               = weight w prevOp
                 + weight w (plug (mkCursor (f next1)
                     (setLefts (mapLayerUses fu l) (tl (l_lefts (mapLayerUses fu l)))
                      :: map (mapLayerUses fu) above)))).
  { unfold plug, mapCursorUses. cbn [focus layers map].
    change (plugAbove (?x :: ?xs) ?y) with (plugAbove xs (fillLayer x y)).
    apply weight_plugAbove. unfold fillLayer.
    rewrite !weight_fillLayerWith.
    cbn [mapLayerUses l_lefts setLefts]. rewrite Hlefts. cbn [map tl].
    rewrite weightOps_cons. fold f. unfold f at 1. rewrite weight_mapValues.
    unfold layerWeight. cbn [setLefts l_args l_rights l_name l_rec l_eff
      l_operands l_results l_regsL l_blksL l_blksR l_regsR mapLayerUses].
    rewrite setLefts_setLefts. lia. }
  apply (proj1 (Nat.add_cancel_l _ _ (weight w prevOp))).
  etransitivity; [symmetry; exact H3 | exact H2].
Qed.
End Kept.

Section KeptByRules.
Variable w : OpName -> nat.

Lemma weight_ScanReaches (k : nat) (c c' : Cursor) :
  ScanReaches k c c' -> weight w (plug c') = weight w (plug c).
Proof.
  induction 1 as [c | k c c1 c' prevOp prevIter Hl Hne Hp He Hr _ IH];
    [reflexivity|].
  rewrite IH. apply weight_relocate. exact Hr.
Qed.

(** The backward scan of CombineParallel keeps, for every kind, the number
    of operations of that kind in the tree, however many operations it
    relocates, and each relocation takes one operation out of the block in
    front of the parallel region. *)
Theorem relocations_keep_operations (k : nat) (c c' : Cursor) :
  ScanReaches k c c' ->
  weight w (plug c') = weight w (plug c)
  /\ length (leftsOf c) = k + length (leftsOf c').
Proof.
  intros H. split; [exact (weight_ScanReaches H) | exact (ScanReaches_lefts H)].
Qed.

Lemma weight_barrierOp : weight w barrierOp = w omp_barrier.
Proof. unfold barrierOp. simpl. lia. Qed.

(** The merge step: what is in the tree afterwards, and the terminator of
    [prevParallel], and [nextParallel] with what its first block did not
    hold, is what was in the tree before, and one barrier. *)
Lemma mergeParallels_keeps_operations (c : Cursor) (l : Layer)
    (above : list Layer) (prevParallel : Operation) (before : list Operation)
    (res : LogicalResult) (r : Operation) :
  layers c = l :: above ->
  l_lefts l = prevParallel :: before ->
  mergeParallels c l above prevParallel before = Some (res, r) ->
  exists pfront term,
    frontBlock prevParallel = Some pfront
    /\ getTerminator pfront = Some term
    /\ weight w r + weight w term + weight w (withoutFrontBlock (focus c))
       = w omp_barrier + weight w (plug c).
Proof.
  intros Hlay Hlefts H. unfold mergeParallels in H.
  destruct (frontBlock prevParallel) as [pfront|] eqn:EQ; [|discriminate].
  destruct (frontBlock (focus c)) as [nfront|] eqn:EP; [|discriminate].
  destruct (getTerminator pfront) as [term|] eqn:Et; [|discriminate].
  destruct (negb (isNil (results term))); [discriminate|].
  destruct (negb (isNil (args nfront))); [discriminate|].
  match type of H with (if ?x then _ else _) = _ => destruct x; [discriminate|] end.
  injection H as _ <-.
  exists pfront, term.
  split; [first [exact EQ | reflexivity]|].
  split; [first [exact Et | reflexivity]|].
  unfold plug. rewrite Hlay.
  change (plugAbove (l :: above) (focus c))
    with (plugAbove above (fillLayer l (focus c))).
  rewrite <- Nat.add_assoc. apply weight_plugAbove_both.
  unfold fillLayer. rewrite !weight_fillLayerWith.
  cbn [setLefts l_lefts]. rewrite Hlefts, !weightOps_cons.
  change (weightOps w []) with 0.
  unfold layerWeight. rewrite setLefts_setLefts.
  pose proof (@weight_setFrontBlock w prevParallel pfront
                (mkBlock (args pfront)
                   ((removelast (ops pfront) ++ [barrierOp]) ++ ops nfront)) EQ) as HQ.
  cbn [ops args] in HQ |- *.
  rewrite !weightOps_app, weightOps_cons, weight_barrierOp in HQ.
  change (weightOps w []) with 0 in HQ.
  pose proof (@weightOps_removelast w (ops pfront) term Et) as HT.
  pose proof (@weight_withoutFrontBlock w (focus c) nfront EP) as HP.
  lia.
Qed.

(** CombineParallel, when its scan reaches a parallel region after [k]
    relocations: counted by kind, the tree afterwards, the terminator the
    barrier has replaced and the erased parallel region with what it held
    beyond its first block are the tree before and one barrier.  The rule
    creates nothing but that barrier and loses nothing else. *)
Theorem CombineParallel_merge_keeps_operations
    (c c' : Cursor) (k : nat) (func : Operation) (pos : OpPath)
    (Q : Operation) (before : list Operation)
    (res : LogicalResult) (r : Operation) :
  getParentOfTypeFunc c = Some (func, pos) ->
  noncontained func pos = true ->
  ScanReaches k c c' ->
  leftsOf c' = Q :: before ->
  isParallel Q = true ->
  CombineParallel c = Some (res, r) ->
  exists pfront term,
    frontBlock Q = Some pfront
    /\ getTerminator pfront = Some term
    /\ weight w r + weight w term + weight w (withoutFrontBlock (focus c'))
       = w omp_barrier + weight w (plug c).
Proof.
  intros Hf Hn Hreach Hl HQ H.
  assert (Hlen : length (leftsOf c) = k + S (length before)).
  { rewrite (ScanReaches_lefts Hreach), Hl. reflexivity. }
  assert (Hc : exists x xs, leftsOf c = x :: xs).
  { destruct (leftsOf c) as [|x xs]; [simpl in Hlen; lia | eauto]. }
  destruct Hc as (x & xs & Hc).
  rewrite (CombineParallel_scan _ Hc Hf Hn), Hlen, (scanPrev_reaches Hreach) in H.
  apply leftsOf_layers in Hl as (l & above & Hlay & Hlefts).
  simpl scanPrev in H. rewrite Hlay, Hlefts, HQ in H.
  destruct (@mergeParallels_keeps_operations c' l above Q before res r
              Hlay Hlefts H)
    as (pfront & term & H1 & H2 & H3).
  exists pfront, term. split; [exact H1|]. split; [exact H2|].
  rewrite H3. rewrite (weight_ScanReaches Hreach). reflexivity.
Qed.

(** Either interchange keeps, for every kind, the number of operations of
    that kind, but for the barrier of the loop rule. *)
Lemma interchange_keeps_operations (withBarrier : bool) (P : Operation)
    (l g : Layer) (above : list Layer) (res : LogicalResult) (r : Operation) :
  interchange withBarrier P l g above = Some (res, r) ->
  weight w r
  = (if withBarrier then w omp_barrier else 0)
    + weight w (plugAbove above (fillLayer g (fillLayer l P))).
Proof.
  unfold interchange. intros H.
  destruct (frontBlock P) as [nfront|] eqn:EP; [|discriminate].
  destruct (getTerminator nfront) as [yield|] eqn:Ey; [|discriminate].
  destruct (frontBlock (fillLayerWith l [])) as [body|] eqn:Eb; [|discriminate].
  destruct (ops body) as [|b0 bs] eqn:Ebody; [discriminate|].
  cbn [isNil] in H.
  match type of H with (if ?x then _ else _) = _ => destruct x; [discriminate|] end.
  injection H as _ <-.
  change (plugAbove above (fillLayerWith g [?x])) with (plugAbove (g :: above) x).
  change (plugAbove above (fillLayer g ?x)) with (plugAbove (g :: above) x).
  apply weight_plugAbove.
  unfold getTerminator in Ey.
  match goal with |- weight w (setFrontBlock P ?b) = _ =>
    pose proof (@weight_setFrontBlock w P nfront b EP) as HP end.
  match type of HP with context [setFrontBlock (fillLayerWith l []) ?b] =>
    pose proof (@weight_setFrontBlock w (fillLayerWith l []) body b Eb) as HF end.
  unfold fillLayer. rewrite (weight_fillLayerWith w l [P]).
  pose proof (weight_fillLayerWith w l []) as HL.
  change (weightOps w []) with 0 in HL.
  rewrite weightOps_cons. change (weightOps w []) with 0.
  cbn [ops args app] in HP, HF.
  rewrite !weightOps_cons, weight_clone in HP.
  change (weightOps w []) with 0 in HP.
  rewrite Ebody in HF.
  assert (Hbody : b0 :: bs <> []) by discriminate.
  destruct withBarrier.
  - destruct (lastOp_nonempty Hbody) as [t Et].
    assert (Hb2 : insertBeforeTerminator barrierOp
                    (mkBlock (args body) (ops nfront ++ b0 :: bs))
                  = mkBlock (args body)
                      (ops nfront ++ removelast (b0 :: bs) ++ [barrierOp; t])).
    { unfold insertBeforeTerminator. cbn [ops args].
      rewrite (lastOp_app (ops nfront) Hbody), Et.
      rewrite (removelast_app (ops nfront) Hbody), <- app_assoc. reflexivity. }
    rewrite Hb2 in HP, HF |- *. cbn [ops args] in HP, HF |- *.
    pose proof (@weightOps_eraseLast w (ops nfront)
                  (removelast (b0 :: bs) ++ [barrierOp; t]) yield Ey) as HE.
    pose proof (@weightOps_removelast w (b0 :: bs) t Et) as HT.
    rewrite weightOps_app, !weightOps_cons, weight_barrierOp in HE.
    change (weightOps w []) with 0 in HE.
    lia.
  - cbn [ops args] in HP, HF |- *.
    pose proof (@weightOps_eraseLast w (ops nfront) (b0 :: bs) yield Ey) as HE.
    lia.
Qed.

(** ParallelForInterchange adds one barrier and otherwise keeps the number
    of operations of every kind. *)
Theorem for_interchange_keeps_operations (c : Cursor) (r : Operation) :
  ParallelForInterchange c = Some (success, r) ->
  weight w r = w omp_barrier + weight w (plug c).
Proof.
  unfold ParallelForInterchange. intros H.
  destruct (layers c) as [|l above] eqn:Hlay; [discriminate|].
  destruct (negb (_ =? 2)); [discriminate|].
  destruct (negb (isFor _) || _); [discriminate|].
  destruct above as [|g above']; [discriminate|].
  apply interchange_keeps_operations in H. rewrite H.
  unfold plug. rewrite Hlay. reflexivity.
Qed.

(** ParallelIfInterchange keeps the number of operations of every kind,
    whichever branch the parallel region was in. *)
Theorem if_interchange_keeps_operations (c : Cursor) (r : Operation) :
  ParallelIfInterchange c = Some (success, r) ->
  weight w r = weight w (plug c).
Proof.
  unfold ParallelIfInterchange. intros H.
  destruct (layers c) as [|l above] eqn:Hlay; [discriminate|].
  destruct (negb (_ =? 2)); [discriminate|].
  destruct (negb (isIf _) || _); [discriminate|].
  destruct above as [|g above']; [discriminate|].
  apply interchange_keeps_operations in H. rewrite H.
  unfold plug. rewrite Hlay. reflexivity.
Qed.
End KeptByRules.

(** ** CombineParallel in front of an operation that does not only read *)

(** With an immediate predecessor that is neither a parallel region nor
    read-only, CombineParallel fails and returns the tree. *)
Theorem CombineParallel_stops_at_writer (c : Cursor) (prevOp : Operation)
    (prevIter : list Operation) (func : Operation) (pos : OpPath) :
  leftsOf c = prevOp :: prevIter ->
  isParallel prevOp = false ->
  isReadOnly prevOp = false ->
  getParentOfTypeFunc c = Some (func, pos) ->
  CombineParallel c = Some (failure, plug c).
Proof.
  intros Hl Hp Hro Hf. unfold CombineParallel.
  apply leftsOf_layers in Hl as (l & above & Hlay & Hlefts).
  rewrite Hlay, Hlefts, Hf. cbn [isNil length].
  destruct (negb (noncontained func pos)); [reflexivity|].
  simpl. rewrite Hlay, Hlefts, Hp.
  unfold onlyReadsAndUsedInside. rewrite Hro. reflexivity.
Qed.

(** ** When the interchange rules fire *)

(** An interchange rule succeeds only on a parallel region that shares its
    block with exactly one more operation, inside a loop (for the loop rule)
    or a conditional (for the other) that has no results and itself lies in a
    block. *)
Theorem interchange_fires_only_on_sole_payload (c : Cursor) (r : Operation) :
  (ParallelForInterchange c = Some (success, r) ->
   exists l g above,
     layers c = l :: g :: above
     /\ length (l_lefts l) + length (l_rights l) = 1
     /\ l_name l = scf_for /\ l_results l = [])
  /\ (ParallelIfInterchange c = Some (success, r) ->
      exists l g above,
        layers c = l :: g :: above
        /\ length (l_lefts l) + length (l_rights l) = 1
        /\ l_name l = scf_if /\ l_results l = []).
Proof.
  split; intros H.
  - unfold ParallelForInterchange in H.
    destruct (layers c) as [|l above]; [discriminate|].
    destruct (length (l_lefts l) + 1 + length (l_rights l) =? 2) eqn:Hsize;
      [|discriminate].
    destruct (isFor (l_name l)) eqn:Hfor; [|discriminate].
    destruct (l_results l) eqn:Hres; [|discriminate].
    destruct above as [|g above']; [discriminate|].
    exists l, g, above'. apply Nat.eqb_eq in Hsize.
    split; [reflexivity|]. split; [lia|].
    split; [destruct (l_name l); try discriminate; reflexivity | exact Hres].
  - unfold ParallelIfInterchange in H.
    destruct (layers c) as [|l above]; [discriminate|].
    destruct (length (l_lefts l) + 1 + length (l_rights l) =? 2) eqn:Hsize;
      [|discriminate].
    destruct (isIf (l_name l)) eqn:Hif; [|discriminate].
    destruct (l_results l) eqn:Hres; [|discriminate].
    destruct above as [|g above']; [discriminate|].
    exists l, g, above'. apply Nat.eqb_eq in Hsize.
    split; [reflexivity|]. split; [lia|].
    split; [destruct (l_name l); try discriminate; reflexivity | exact Hres].
Qed.

(** ** Uses after a relocation *)

Lemma operandsOf_unfold (o : Operation) :
  operandsOf o
  = operands o
    ++ flat_map (fun region : Region =>
         flat_map (fun b => flat_map operandsOf (ops b)) region)
       (regions o).
Proof. destruct o; reflexivity. Qed.












Lemma memValue_In (v : Value) (l : list Value) :
  memValue v l = true <-> In v l.
Proof.
  unfold memValue. rewrite existsb_exists. split.
  - intros (x & Hx & Heq). apply Nat.eqb_eq in Heq. subst. exact Hx.
  - intros H. exists v. split; [exact H | apply Nat.eqb_refl].
Qed.


(** ** Positions of the operations around a cursor *)

Lemma isPrefix_app_same (a b q : OpPath) :
  isPrefix (a ++ b) (a ++ q) = isPrefix b q.
Proof.
  induction a as [|[[r b0] i] a IH]; [reflexivity|].
  simpl. rewrite !Nat.eqb_refl, IH. reflexivity.
Qed.

Lemma isPrefix_app_l (a b p : OpPath) :
  isPrefix (a ++ b) p = true -> isPrefix a p = true.
Proof.
  revert p. induction a as [|[[r b0] i] a IH]; intros p H; [reflexivity|].
  destruct p as [|[[r' b'] i'] p]; [discriminate|].
  simpl in H |- *. apply andb_true_iff in H as [H1 H2].
  rewrite H1. apply IH, H2.
Qed.

Lemma In_iflat (A B : Type) (f : nat -> A -> list B) (xs ys : list A) (x : A)
    (z : B) :
  forall n, In z (f (n + length xs) x) -> In z (iflat f n (xs ++ x :: ys)).
Proof.
  induction xs as [|x0 xs IH]; intros n H; simpl.
  - rewrite Nat.add_0_r in H. apply in_or_app. left. exact H.
  - apply in_or_app. right. apply IH.
    simpl in H. rewrite Nat.add_succ_r in H. exact H.
Qed.

Lemma walk_unfold (o : Operation) :
  walk o
  = ([], o) ::
    iflat (fun r (region : Region) =>
      iflat (fun b block =>
        iflat (fun i child =>
          map (fun po : OpPath * Operation => ((r, b, i) :: fst po, snd po))
              (walk child))
          0 (ops block))
        0 region)
      0 (regions o).
Proof. destruct o; reflexivity. Qed.

(** An operation nested in a child is nested in the parent, one step
    further down. *)
Lemma walk_child (o : Operation) (regsL regsR : list Region)
    (blksL blksR : list (Block Operation)) (blk : Block Operation)
    (xs ys : list Operation) (child : Operation) (q : OpPath) (y : Operation) :
  regions o = regsL ++ (blksL ++ blk :: blksR) :: regsR ->
  ops blk = xs ++ child :: ys ->
  In (q, y) (walk child) ->
  In ((length regsL, length blksL, length xs) :: q, y) (walk o).
Proof.
  intros Hregs Hops Hin. rewrite walk_unfold, Hregs. right.
  apply In_iflat. apply In_iflat. rewrite Hops. apply In_iflat.
  cbn [Nat.add]. apply in_map_iff. exists (q, y). split; [reflexivity | exact Hin].
Qed.

Lemma walk_self (o : Operation) : In ([], o) (walk o).
Proof. rewrite walk_unfold. left. reflexivity. Qed.

(** Whoever uses a value below an operation shows up in its walk. *)
Lemma operandsOf_walk (o : Operation) :
  forall v, In v (operandsOf o) ->
    exists q y, In (q, y) (walk o) /\ In v (operands y).
Proof.
  induction o as [n r e os rs regs IH] using Operation_nested_ind.
  intros v Hv. rewrite operandsOf_unfold in Hv. cbn [operands regions] in Hv.
  apply in_app_or in Hv as [Hv | Hv].
  - exists [], (mkOp n r e os rs regs). split; [apply walk_self | exact Hv].
  - apply in_flat_map in Hv as (region & Hregion & Hv).
    apply in_flat_map in Hv as (blk & Hblk & Hv).
    apply in_flat_map in Hv as (child & Hchild & Hv).
    rewrite Forall_forall in IH. specialize (IH region Hregion).
    rewrite Forall_forall in IH. specialize (IH blk Hblk).
    rewrite Forall_forall in IH. specialize (IH child Hchild v Hv).
    destruct IH as (q & y & Hq & Hy).
    apply in_split in Hregion as (regsL & regsR & ->).
    apply in_split in Hblk as (blksL & blksR & ->).
    apply in_split in Hchild as (xs & ys & Hops).
    exists ((length regsL, length blksL, length xs) :: q), y.
    split; [|exact Hy].
    eapply walk_child; [reflexivity | exact Hops | exact Hq].
Qed.

Lemma walk_fillLayer (l : Layer) (o : Operation) (q : OpPath) (y : Operation) :
  In (q, y) (walk o) -> In (stepOf l :: q, y) (walk (fillLayer l o)).
Proof.
  intros H. unfold stepOf. rewrite <- (length_rev (l_lefts l)).
  eapply walk_child; [reflexivity | reflexivity | exact H].
Qed.

Lemma walk_plugAbove (ls : list Layer) :
  forall o q y,
    In (q, y) (walk o) ->
    In (rev (map stepOf ls) ++ q, y) (walk (plugAbove ls o)).
Proof.
  induction ls as [|l ls IH]; intros o q y H; [exact H|].
  change (plugAbove (l :: ls) o) with (plugAbove ls (fillLayer l o)).
  cbn [map rev]. rewrite <- app_assoc. apply IH.
  apply walk_fillLayer. exact H.
Qed.

Lemma isPrefix_other_step (r b i r' b' i' : nat) (q : OpPath) :
  r <> r' \/ b <> b' \/ i <> i' ->
  isPrefix [(r, b, i)] ((r', b', i') :: q) = false.
Proof.
  intros H. cbn [isPrefix].
  destruct H as [H | [H | H]]; apply Nat.eqb_neq in H; rewrite H;
    rewrite ?andb_false_r; reflexivity.
Qed.

(** What a layer holds beside its hole is used at positions that do not go
    through the hole. *)
Lemma layer_users_outside (l : Layer) (o : Operation) (v : Value) :
  In v (layerOperands l) ->
  exists q y,
    In (q, y) (walk (fillLayer l o))
    /\ In v (operands y)
    /\ isPrefix [stepOf l] q = false.
Proof.
  unfold layerOperands. rewrite !in_app_iff, !flat_map_app, !in_app_iff.
  intros [H | [H | [H | [[H | H] | [H | H]]]]].
  - (* the owner *)
    exists [], (fillLayer l o). split; [apply walk_self|]. split; [exact H|].
    reflexivity.
  - (* before the hole *)
    apply in_flat_map in H as (x & Hx & Hv).
    apply operandsOf_walk in Hv as (q & y & Hq & Hy).
    apply in_rev in Hx. apply in_split in Hx as (xs & ys & Hsplit).
    exists ((length (l_regsL l), length (l_blksL l), length xs) :: q), y.
    split; [|split; [exact Hy|]].
    + eapply walk_child; [reflexivity | | exact Hq].
      unfold fillLayerWith. cbn [ops]. rewrite Hsplit, <- app_assoc. reflexivity.
    + apply isPrefix_other_step. right. right.
      rewrite <- (length_rev (l_lefts l)), Hsplit, length_app. simpl. lia.
  - (* behind the hole *)
    apply in_flat_map in H as (x & Hx & Hv).
    apply operandsOf_walk in Hv as (q & y & Hq & Hy).
    apply in_split in Hx as (xs & ys & Hsplit).
    exists ((length (l_regsL l), length (l_blksL l),
             length (rev (l_lefts l) ++ o :: xs)) :: q), y.
    split; [|split; [exact Hy|]].
    + eapply walk_child; [reflexivity | | exact Hq].
      unfold fillLayerWith. cbn [ops app]. rewrite Hsplit, <- app_assoc.
      reflexivity.
    + apply isPrefix_other_step. right. right.
      rewrite length_app, length_rev. simpl. lia.
  - (* a block before *)
    apply in_flat_map in H as (b & Hb & H).
    apply in_flat_map in H as (x & Hx & Hv).
    apply operandsOf_walk in Hv as (q & y & Hq & Hy).
    apply in_split in Hb as (bl & br & Hsplit).
    apply in_split in Hx as (xs & ys & Hops).
    exists ((length (l_regsL l), length bl, length xs) :: q), y.
    split; [|split; [exact Hy|]].
    + eapply walk_child; [| exact Hops | exact Hq].
      unfold fillLayer, fillLayerWith. cbn [regions].
      rewrite Hsplit, <- app_assoc. reflexivity.
    + apply isPrefix_other_step. right. left.
      rewrite Hsplit, length_app. simpl. lia.
  - (* a block behind *)
    apply in_flat_map in H as (b & Hb & H).
    apply in_flat_map in H as (x & Hx & Hv).
    apply operandsOf_walk in Hv as (q & y & Hq & Hy).
    apply in_split in Hb as (bl & br & Hsplit).
    apply in_split in Hx as (xs & ys & Hops).
    exists ((length (l_regsL l),
             length (l_blksL l
                     ++ mkBlock (l_args l) (rev (l_lefts l) ++ [o] ++ l_rights l)
                     :: bl),
             length xs) :: q), y.
    split; [|split; [exact Hy|]].
    + eapply walk_child; [| exact Hops | exact Hq].
      unfold fillLayer, fillLayerWith. cbn [regions].
      rewrite Hsplit, <- app_assoc. reflexivity.
    + apply isPrefix_other_step. right. left.
      rewrite length_app. simpl. lia.
  - (* a region before *)
    apply in_flat_map in H as (reg & Hreg & H).
    apply in_flat_map in H as (b & Hb & H).
    apply in_flat_map in H as (x & Hx & Hv).
    apply operandsOf_walk in Hv as (q & y & Hq & Hy).
    apply in_split in Hreg as (rl & rr & Hsplit).
    apply in_split in Hb as (bl & br & ->).
    apply in_split in Hx as (xs & ys & Hops).
    exists ((length rl, length bl, length xs) :: q), y.
    split; [|split; [exact Hy|]].
    + eapply walk_child; [| exact Hops | exact Hq].
      unfold fillLayer, fillLayerWith. cbn [regions].
      rewrite Hsplit, <- app_assoc. reflexivity.
    + apply isPrefix_other_step. left.
      rewrite Hsplit, length_app. simpl. lia.
  - (* a region behind *)
    apply in_flat_map in H as (reg & Hreg & H).
    apply in_flat_map in H as (b & Hb & H).
    apply in_flat_map in H as (x & Hx & Hv).
    apply operandsOf_walk in Hv as (q & y & Hq & Hy).
    apply in_split in Hreg as (rl & rr & Hsplit).
    apply in_split in Hb as (bl & br & ->).
    apply in_split in Hx as (xs & ys & Hops).
    exists ((length (l_regsL l
                     ++ (l_blksL l
                         ++ mkBlock (l_args l)
                              (rev (l_lefts l) ++ [o] ++ l_rights l)
                         :: l_blksR l)
                     :: rl),
             length bl, length xs) :: q), y.
    split; [|split; [exact Hy|]].
    + eapply walk_child; [| exact Hops | exact Hq].
      unfold fillLayer, fillLayerWith. cbn [regions].
      rewrite Hsplit, <- app_assoc. reflexivity.
    + apply isPrefix_other_step. left.
      rewrite length_app. simpl. lia.
Qed.

(** Whatever the layers around a cursor hold is used at positions that are
    not below the focus. *)
Lemma users_outside (ls : list Layer) :
  forall o v,
    In v (flat_map layerOperands ls) ->
    exists p y,
      In (p, y) (walk (plugAbove ls o))
      /\ In v (operands y)
      /\ isPrefix (rev (map stepOf ls)) p = false.
Proof.
  induction ls as [|l ls IH]; intros o v H; [contradiction|].
  change (plugAbove (l :: ls) o) with (plugAbove ls (fillLayer l o)).
  cbn [flat_map map rev] in H |- *. apply in_app_or in H as [H | H].
  - destruct (layer_users_outside l o v H) as (q & y & Hq & Hy & Hpre).
    exists (rev (map stepOf ls) ++ q), y.
    split; [apply walk_plugAbove, Hq|]. split; [exact Hy|].
    rewrite isPrefix_app_same. exact Hpre.
  - destruct (IH (fillLayer l o) v H) as (p & y & Hp & Hy & Hpre).
    exists p, y. split; [exact Hp|]. split; [exact Hy|].
    apply not_true_is_false. intros Habs.
    apply isPrefix_app_l in Habs. congruence.
Qed.

(** Under the test of lines 100-105 nothing around the parallel region uses
    a result of the predecessor. *)
Lemma usedInside_layers (c : Cursor) (prevOp : Operation) (v : Value) :
  onlyReadsAndUsedInside c prevOp = true ->
  In v (results prevOp) ->
  ~ In v (flat_map layerOperands (layers c)).
Proof.
  intros Htest Hv Hin.
  apply andb_true_iff in Htest as [_ Hall].
  rewrite forallb_forall in Hall. specialize (Hall v Hv).
  rewrite forallb_forall in Hall.
  destruct (users_outside (layers c) (focus c) v Hin) as (p & y & Hp & Hy & Hpre).
  assert (Huser : In p (getUsers (plug c) v)).
  { unfold getUsers. apply in_map_iff. exists (p, y). split; [reflexivity|].
    apply filter_In. split; [exact Hp|].
    cbn [snd]. unfold usesValue. apply existsb_exists.
    exists v. split; [exact Hy | apply Nat.eqb_refl]. }
  specialize (Hall p Huser). unfold isAncestor, cursorPath in Hall. congruence.
Qed.

Lemma map_id_In (A : Type) (f : A -> A) (l : list A) :
  (forall x, In x l -> f x = x) -> map f l = l.
Proof.
  induction l as [|x l IH]; intros H; [reflexivity|].
  simpl. rewrite H by (left; reflexivity). f_equal.
  apply IH. intros y Hy. apply H. right. exact Hy.
Qed.

(** Replacing uses does nothing to an operation that has none of them. *)
Lemma mapValues_unused (fu : Value -> Value) (o : Operation) :
  (forall v, In v (operandsOf o) -> fu v = v) ->
  mapValues (fun v => v) fu o = o.
Proof.
  induction o as [n r e os rs regs IH] using Operation_nested_ind.
  intros H. rewrite operandsOf_unfold in H. cbn [operands regions] in H.
  cbn [mapValues name hasRecursiveSideEffects memoryEffects operands results regions].
  rewrite map_id. f_equal.
  - apply map_id_In. intros v Hv. apply H, in_or_app. left. exact Hv.
  - apply map_id_In. intros region Hregion.
    apply map_id_In. intros b Hb. destruct b as [bargs bops]. cbn [args ops].
    rewrite map_id. f_equal.
    apply map_id_In. intros x Hx.
    rewrite Forall_forall in IH. specialize (IH region Hregion).
    rewrite Forall_forall in IH. specialize (IH _ Hb).
    rewrite Forall_forall in IH. apply (IH x Hx).
    intros v Hv. apply H, in_or_app. right.
    apply in_flat_map. exists region. split; [exact Hregion|].
    apply in_flat_map. exists (mkBlock bargs bops). split; [exact Hb|].
    apply in_flat_map. exists x. split; [exact Hx | exact Hv].
Qed.

Lemma mapBlock_unused (fu : Value -> Value) (b : Block Operation) :
  (forall v, In v (flat_map operandsOf (ops b)) -> fu v = v) ->
  mapBlock (mapValues (fun v => v) fu) b = b.
Proof.
  intros H. destruct b as [bargs bops]. unfold mapBlock. cbn [args ops] in *.
  f_equal. apply map_id_In. intros x Hx. apply mapValues_unused.
  intros v Hv. apply H, in_flat_map. exists x. split; assumption.
Qed.

Lemma mapLayerUses_unused (fu : Value -> Value) (l : Layer) :
  (forall v, In v (layerOperands l) -> fu v = v) ->
  mapLayerUses fu l = l.
Proof.
  intros H. unfold layerOperands in H.
  assert (Hops : forall xs,
            (forall v, In v (flat_map operandsOf xs) -> fu v = v) ->
            map (mapValues (fun v => v) fu) xs = xs).
  { intros xs Hxs. apply map_id_In. intros x Hx. apply mapValues_unused.
    intros v Hv. apply Hxs, in_flat_map. exists x. split; assumption. }
  assert (Hblks : forall bs,
            (forall v, In v (flat_map (fun b => flat_map operandsOf (ops b)) bs) ->
                       fu v = v) ->
            map (mapBlock (mapValues (fun v => v) fu)) bs = bs).
  { intros bs Hbs. apply map_id_In. intros b Hb. apply mapBlock_unused.
    intros v Hv. apply Hbs, in_flat_map. exists b. split; assumption. }
  assert (Hregs : forall rs : list Region,
            (forall v, In v (flat_map (fun region : Region =>
                          flat_map (fun b => flat_map operandsOf (ops b)) region) rs) ->
                       fu v = v) ->
            map (map (mapBlock (mapValues (fun v => v) fu))) rs = rs).
  { intros rs Hrs. apply map_id_In. intros region Hregion. apply Hblks.
    intros v Hv. apply Hrs, in_flat_map. exists region. split; assumption. }
  destruct l as [a lefts rights n r e os rs regsL blksL blksR regsR].
  unfold mapLayerUses. cbn [l_args l_lefts l_rights l_name l_rec l_eff l_operands
    l_results l_regsL l_blksL l_blksR l_regsR] in *.
  rewrite !flat_map_app in H.
  f_equal.
  - apply Hops. intros v Hv. apply H. rewrite !in_app_iff. tauto.
  - apply Hops. intros v Hv. apply H. rewrite !in_app_iff. tauto.
  - apply map_id_In. intros v Hv. apply H. rewrite !in_app_iff. tauto.
  - apply Hregs. intros v Hv. apply H. rewrite !in_app_iff. tauto.
  - apply Hblks. intros v Hv. apply H. rewrite !in_app_iff. tauto.
  - apply Hblks. intros v Hv. apply H. rewrite !in_app_iff. tauto.
  - apply Hregs. intros v Hv. apply H. rewrite !in_app_iff. tauto.
Qed.

Lemma replaceUses_other (olds : list Value) (n : nat) (v : Value) :
  ~ In v olds -> replaceUses olds n v = v.
Proof.
  intros H. unfold replaceUses.
  destruct (memValue v olds) eqn:E; [|reflexivity].
  apply memValue_In in E. contradiction.
Qed.

Lemma relocate_layers (c c' : Cursor) (l : Layer)
    (above : list Layer) (prevOp : Operation) (prevIter : list Operation) :
  layers c = l :: above ->
  l_lefts l = prevOp :: prevIter ->
  onlyReadsAndUsedInside c prevOp = true ->
  relocate c = Some c' ->
  layers c' = setLefts l prevIter :: above.
Proof.
  intros Hlay Hlefts Htest Hr.
  unfold relocate in Hr. rewrite Hlay, Hlefts in Hr.
  destruct (frontBlock (focus c)) as [front|]; [|discriminate].
  cbn [mapCursorUses layers focus map] in Hr. injection Hr as <-.
  cbn [layers].
  set (fu := replaceUses (results prevOp) (freshBase (plug c))).
  assert (Hid : forall l0, In l0 (layers c) -> mapLayerUses fu l0 = l0).
  { intros l0 Hl0. apply mapLayerUses_unused. intros v Hv.
    apply replaceUses_other. intros Hold.
    apply (@usedInside_layers c prevOp v Htest Hold).
    apply in_flat_map. exists l0. split; assumption. }
  rewrite Hlay in Hid.
  pose proof (Hid l (or_introl eq_refl)) as Hl.
  assert (Hm : map (mapValues (fun v => v) fu) (l_lefts l) = l_lefts l)
    by (apply (f_equal l_lefts) in Hl; exact Hl).
  rewrite Hlefts in Hm. cbn [map] in Hm. injection Hm as _ Hm.
  f_equal.
  - rewrite ?Hl. cbn [map tl]. rewrite ?Hlefts. cbn [map tl]. rewrite ?Hm.
    reflexivity.
  - apply map_id_In. intros l0 Hl0. apply Hid. right. exact Hl0.
Qed.

(** When the test of lines 100-105 holds, the relocation touches nothing
    but the parallel region: the operations beside it, its enclosing
    operations and everything else in the tree are as before, the
    predecessor is gone from the block, and its clone is the first operation
    of the region. *)
Theorem relocate_touches_only_the_region (c : Cursor) (l : Layer)
    (above : list Layer) (prevOp : Operation) (prevIter : list Operation)
    (front : Block Operation) :
  layers c = l :: above ->
  l_lefts l = prevOp :: prevIter ->
  onlyReadsAndUsedInside c prevOp = true ->
  frontBlock (focus c) = Some front ->
  relocate c
  = Some (mkCursor (withRelocated (plug c) (focus c) prevOp front)
                   (setLefts l prevIter :: above)).
Proof.
  intros Hlay Hlefts Htest Hfront.
  destruct (relocate c) as [c'|] eqn:Hr.
  - pose proof (@relocate_layers c c' l above prevOp prevIter
                  Hlay Hlefts Htest Hr) as Hlayers.
    unfold relocate in Hr. rewrite Hlay, Hlefts, Hfront in Hr.
    cbn [mapCursorUses layers focus map] in Hr. injection Hr as <-.
    cbn [layers] in Hlayers. rewrite Hlayers. reflexivity.
  - unfold relocate in Hr. rewrite Hlay, Hlefts, Hfront in Hr. discriminate.
Qed.

(** ** CombineParallel with nothing but movable operations in front *)

(** When the scan, after [k] relocations, stands at a movable operation
    that is the first of the block, CombineParallel relocates it too and
    succeeds without a merge; the parallel region is then the first operation
    of its block, and nothing else in the tree has changed in this last
    step. *)
Theorem CombineParallel_hoists_to_front
    (c c' : Cursor) (k : nat) (func : Operation) (pos : OpPath)
    (l : Layer) (above : list Layer) (prevOp : Operation)
    (front : Block Operation) :
  getParentOfTypeFunc c = Some (func, pos) ->
  noncontained func pos = true ->
  ScanReaches k c c' ->
  layers c' = l :: above ->
  l_lefts l = [prevOp] ->
  isParallel prevOp = false ->
  onlyReadsAndUsedInside c' prevOp = true ->
  frontBlock (focus c') = Some front ->
  CombineParallel c
  = Some (success,
          plugAbove above
            (fillLayer (setLefts l [])
               (withRelocated (plug c') (focus c') prevOp front))).
Proof.
  intros Hf Hn Hreach Hlay Hlefts Hp Htest Hfront.
  assert (Hl : leftsOf c' = [prevOp]) by (unfold leftsOf; rewrite Hlay; exact Hlefts).
  assert (Hlen : length (leftsOf c) = k + 1).
  { rewrite (ScanReaches_lefts Hreach), Hl. reflexivity. }
  assert (Hc : exists x xs, leftsOf c = x :: xs).
  { destruct (leftsOf c) as [|x xs]; [simpl in Hlen; lia | eauto]. }
  destruct Hc as (x & xs & Hc).
  rewrite (CombineParallel_scan _ Hc Hf Hn), Hlen, (scanPrev_reaches Hreach).
  rewrite (@scanPrev_predecessor 0 _ c' prevOp [] Hl Hp), Htest.
  destruct (relocate c') as [c''|] eqn:Hr.
  - pose proof (@relocate_layers c' c'' l above prevOp []
                  Hlay Hlefts Htest Hr) as Hlayers.
    unfold relocate in Hr. rewrite Hlay, Hlefts, Hfront in Hr.
    cbn [mapCursorUses layers focus map] in Hr. injection Hr as <-.
    cbn [layers] in Hlayers.
    unfold plug at 1. cbn [focus layers]. rewrite Hlayers.
    reflexivity.
  - unfold relocate in Hr. rewrite Hlay, Hlefts, Hfront in Hr. discriminate.
Qed.

(** ** The use test of CombineParallel through the operands of the tree *)

Lemma iflat_In_inv (A B : Type) (f : nat -> A -> list B) (l : list A) (z : B) :
  forall n, In z (iflat f n l) ->
    exists xs x ys, l = xs ++ x :: ys /\ In z (f (n + length xs) x).
Proof.
  induction l as [|x0 l IH]; intros n H; simpl in H; [contradiction|].
  apply in_app_or in H as [H | H].
  - exists [], x0, l. split; [reflexivity|]. simpl. rewrite Nat.add_0_r. exact H.
  - destruct (IH _ H) as (xs & x & ys & -> & Hz).
    exists (x0 :: xs), x, ys. split; [reflexivity|].
    simpl. rewrite Nat.add_succ_r. exact Hz.
Qed.

Lemma walk_inv (o : Operation) (p : OpPath) (y : Operation) :
  In (p, y) (walk o) ->
  (p = [] /\ y = o)
  \/ exists regsL blksL blk blksR regsR xs child ys q,
       regions o = regsL ++ (blksL ++ blk :: blksR) :: regsR
       /\ ops blk = xs ++ child :: ys
       /\ p = (length regsL, length blksL, length xs) :: q
       /\ In (q, y) (walk child).
Proof.
  rewrite walk_unfold. intros [H | H].
  - left. injection H as <- <-. split; reflexivity.
  - right.
    apply iflat_In_inv in H as (regsL & region & regsR & Hregs & H).
    apply iflat_In_inv in H as (blksL & blk & blksR & -> & H).
    apply iflat_In_inv in H as (xs & child & ys & Hops & H).
    apply in_map_iff in H as ([q y'] & Heq & H). cbn [fst snd] in Heq.
    injection Heq as <- <-.
    exists regsL, blksL, blk, blksR, regsR, xs, child, ys, q.
    repeat split; assumption.
Qed.

(** Whoever shows up in the walk of an operation has its operands among the
    operands below that operation. *)
Lemma walk_operands (o : Operation) :
  forall q y v, In (q, y) (walk o) -> In v (operands y) -> In v (operandsOf o).
Proof.
  induction o as [n r e os rs regs IH] using Operation_nested_ind.
  intros q y v Hq Hv. rewrite operandsOf_unfold. cbn [operands regions].
  apply walk_inv in Hq
    as [[_ ->] | (regsL & blksL & blk & blksR & regsR & xs & child & ys & q'
                  & Hregs & Hops & _ & Hq)].
  - apply in_or_app. left. exact Hv.
  - cbn [regions] in Hregs. apply in_or_app. right.
    assert (Hregion : In (blksL ++ blk :: blksR) regs)
      by (rewrite Hregs; apply in_elt).
    assert (Hblk : In blk (blksL ++ blk :: blksR)) by apply in_elt.
    assert (Hchild : In child (ops blk)) by (rewrite Hops; apply in_elt).
    apply in_flat_map. exists (blksL ++ blk :: blksR). split; [exact Hregion|].
    apply in_flat_map. exists blk. split; [exact Hblk|].
    apply in_flat_map. exists child. split; [exact Hchild|].
    rewrite Forall_forall in IH. specialize (IH _ Hregion).
    rewrite Forall_forall in IH. specialize (IH _ Hblk).
    rewrite Forall_forall in IH. exact (IH _ Hchild q' y v Hq Hv).
Qed.

Lemma app_cons_decomp (A : Type) (xs : list A) :
  forall (x : A) ys xs' x' ys',
    xs ++ x :: ys = xs' ++ x' :: ys' ->
    (xs = xs' /\ x = x' /\ ys = ys') \/ In x' xs \/ In x' ys.
Proof.
  induction xs as [|a xs IH]; intros x ys xs' x' ys' H.
  - destruct xs' as [|a' xs']; simpl in H.
    + injection H as -> ->. left. repeat split.
    + injection H as -> ->. right. right. apply in_elt.
  - destruct xs' as [|a' xs']; simpl in H.
    + injection H as -> _. right. left. left. reflexivity.
    + injection H as -> H. apply IH in H as [(-> & -> & ->) | [H | H]].
      * left. repeat split.
      * right. left. right. exact H.
      * right. right. exact H.
Qed.

(** An operation in the walk of a filled layer lies in the hole, or its
    operands are among those the layer holds beside the hole. *)
Lemma layer_walk_inv (l : Layer) (o : Operation) (p : OpPath) (y : Operation) :
  In (p, y) (walk (fillLayer l o)) ->
  (exists q, p = stepOf l :: q /\ In (q, y) (walk o))
  \/ (forall v, In v (operands y) -> In v (layerOperands l)).
Proof.
  intros H.
  apply walk_inv in H
    as [[_ ->] | (regsL & blksL & blk & blksR & regsR & xs & child & ys & q
                  & Hregs & Hops & -> & Hq)].
  - right. intros v Hv. unfold layerOperands. apply in_or_app. left. exact Hv.
  - unfold fillLayer, fillLayerWith in Hregs. cbn [regions app] in Hregs.
    assert (Hsub : forall v, In v (operands y) -> In v (operandsOf child))
      by (intros v Hv; exact (walk_operands child q y v Hq Hv)).
    assert (Hchild : In child (ops blk)) by (rewrite Hops; apply in_elt).
    assert (Hblk : In blk (blksL ++ blk :: blksR)) by apply in_elt.
    apply app_cons_decomp in Hregs as [(E1 & Hregion & E2) | Hregs].
    + subst regsL regsR.
      apply app_cons_decomp in Hregion as [(E1 & E2 & E3) | Hregion].
      * subst blksL blk blksR. cbn [ops] in Hops, Hchild.
        apply app_cons_decomp in Hops as [(E1 & E2 & E3) | Hops].
        -- subst xs child ys. left. exists q. split; [|exact Hq].
           unfold stepOf. rewrite length_rev. reflexivity.
        -- right. intros v Hv. apply Hsub in Hv. unfold layerOperands.
           rewrite !in_app_iff.
           destruct Hops as [Hops | Hops].
           ++ right. left. apply in_flat_map. exists child.
              split; [apply in_rev; exact Hops | exact Hv].
           ++ right. right. left. apply in_flat_map. exists child.
              split; [exact Hops | exact Hv].
      * right. intros v Hv. apply Hsub in Hv. unfold layerOperands.
        rewrite !in_app_iff. right. right. right. left.
        apply in_flat_map. exists blk. split.
        -- apply in_or_app. exact Hregion.
        -- apply in_flat_map. exists child. split; assumption.
    + right. intros v Hv. apply Hsub in Hv. unfold layerOperands.
      rewrite !in_app_iff. right. right. right. right.
      apply in_flat_map. exists (blksL ++ blk :: blksR). split.
      * apply in_or_app. exact Hregs.
      * apply in_flat_map. exists blk. split; [exact Hblk|].
        apply in_flat_map. exists child. split; assumption.
Qed.

Lemma plugAbove_walk_inv (ls : list Layer) :
  forall o p y,
    In (p, y) (walk (plugAbove ls o)) ->
    (exists q, p = rev (map stepOf ls) ++ q /\ In (q, y) (walk o))
    \/ (forall v, In v (operands y) -> In v (flat_map layerOperands ls)).
Proof.
  induction ls as [|l ls IH]; intros o p y H.
  - left. exists p. split; [reflexivity | exact H].
  - change (plugAbove (l :: ls) o) with (plugAbove ls (fillLayer l o)) in H.
    cbn [map rev flat_map].
    apply IH in H as [(q & -> & H) | H].
    + apply layer_walk_inv in H as [(q' & -> & H) | H].
      * left. exists q'. split; [|exact H].
        rewrite <- app_assoc. reflexivity.
      * right. intros v Hv. apply in_or_app. left. apply H, Hv.
    + right. intros v Hv. apply in_or_app. right. apply H, Hv.
Qed.

Lemma isPrefix_app (a q : OpPath) : isPrefix a (a ++ q) = true.
Proof.
  induction a as [|[[r b] i] a IH]; [reflexivity|].
  simpl. rewrite !Nat.eqb_refl, IH. reflexivity.
Qed.

(** The test of lines 100-105 through the operands of the tree: the
    operation only reads, and no operation outside the parallel region -
    beside it in its block, in another block or region of an enclosing
    operation, or an enclosing operation itself - has one of its results as
    an operand.  The parallel region itself counts as inside. *)
Theorem onlyReadsAndUsedInside_iff_unused_outside
    (c : Cursor) (prevOp : Operation) :
  onlyReadsAndUsedInside c prevOp = true
  <-> isReadOnly prevOp = true
      /\ forall v, In v (results prevOp) ->
           ~ In v (flat_map layerOperands (layers c)).
Proof.
  split.
  - intros H. split.
    + apply andb_true_iff in H. exact (proj1 H).
    + intros v Hv. exact (@usedInside_layers c prevOp v H Hv).
  - intros [Hro Hout]. unfold onlyReadsAndUsedInside. rewrite Hro.
    cbn [andb]. apply forallb_forall. intros v Hv.
    apply forallb_forall. intros user Huser.
    unfold getUsers in Huser. apply in_map_iff in Huser as ([p y] & <- & Hp).
    apply filter_In in Hp as [Hp Huse]. cbn [fst snd] in Huse |- *.
    unfold usesValue in Huse. apply existsb_exists in Huse as (x & Hx & Heq).
    apply Nat.eqb_eq in Heq. subst x.
    unfold plug in Hp. apply plugAbove_walk_inv in Hp as [(q & -> & _) | Hp].
    + unfold isAncestor, cursorPath. apply isPrefix_app.
    + exfalso. exact (Hout v Hv (Hp v Hx)).
Qed.

(** A predecessor with a result that some operation outside the parallel
    region uses stays where it is: CombineParallel fails and returns the
    tree. *)
Theorem CombineParallel_keeps_what_is_used_outside
    (c : Cursor) (prevOp : Operation) (prevIter : list Operation)
    (func : Operation) (pos : OpPath) (v : Value) :
  leftsOf c = prevOp :: prevIter ->
  isParallel prevOp = false ->
  getParentOfTypeFunc c = Some (func, pos) ->
  In v (results prevOp) ->
  In v (flat_map layerOperands (layers c)) ->
  CombineParallel c = Some (failure, plug c).
Proof.
  intros Hl Hp Hf Hv Hout.
  assert (Htest : onlyReadsAndUsedInside c prevOp = false).
  { apply not_true_is_false. intros H.
    exact (@usedInside_layers c prevOp v H Hv Hout). }
  unfold CombineParallel.
  apply leftsOf_layers in Hl as (l & above & Hlay & Hlefts).
  rewrite Hlay, Hlefts, Hf. cbn [isNil length].
  destruct (negb (noncontained func pos)); [reflexivity|].
  simpl. rewrite Hlay, Hlefts, Hp, Htest. reflexivity.
Qed.

(** ** The further properties at sample programs *)

Lemma isReadOnly_rejects_other_effects_witness :
  isReadOnly (allocOp 2) = false.
Proof.
  refine (@isReadOnly_rejects_other_effects (allocOp 2) [Allocate] Allocate
            eq_refl (or_introl eq_refl) _).
  discriminate.
Defined.

Lemma isReadOnly_nested_blocks_witness :
  isReadOnly recursiveWrapper = false.
Proof.
  pose (c := cursorAt recursiveWrapper [(0, 0, 0)]).
  assert (Hrec : Forall (fun l => l_rec l = true) (layers c)).
  { repeat constructor. }
  exact (@isReadOnly_nested_blocks c Hrec eq_refl).
Defined.

Lemma relocations_keep_operations_witness :
  weight isParallelName
    (plug (relocated (cursorAt loadBehindStore [(0, 0, 2)])))
  = weight isParallelName loadBehindStore
  /\ length (leftsOf (cursorAt loadBehindStore [(0, 0, 2)]))
     = 1 + length (leftsOf (relocated (cursorAt loadBehindStore [(0, 0, 2)]))).
Proof.
  pose (c := cursorAt loadBehindStore [(0, 0, 2)]).
  assert (Hreach : ScanReaches 1 c (relocated c)).
  { apply ScanReaches_move
      with (c1 := relocated c) (prevOp := loadOp 0 1) (prevIter := [storeTo 0 0]).
    - reflexivity.
    - discriminate.
    - reflexivity.
    - reflexivity.
    - reflexivity.
    - apply ScanReaches_here. }
  exact (@relocations_keep_operations isParallelName 1 c (relocated c) Hreach).
Defined.

Lemma CombineParallel_merge_keeps_operations_witness :
  exists pfront term,
    frontBlock (parallelOp [] [storeTo 0 0; terminatorOp]) = Some pfront
    /\ getTerminator pfront = Some term
    /\ weight isBarrierName twoParallels_merged
       + weight isBarrierName term
       + weight isBarrierName
           (withoutFrontBlock
              (focus (relocated (cursorAt twoParallels [(0, 0, 2)]))))
       = isBarrierName omp_barrier
         + weight isBarrierName twoParallels.
Proof.
  pose (c := cursorAt twoParallels [(0, 0, 2)]).
  assert (Hreach : ScanReaches 1 c (relocated c)).
  { apply ScanReaches_move
      with (c1 := relocated c) (prevOp := loadOp 0 1)
           (prevIter := [parallelOp [] [storeTo 0 0; terminatorOp]]).
    - reflexivity.
    - discriminate.
    - reflexivity.
    - reflexivity.
    - reflexivity.
    - apply ScanReaches_here. }
  exact (@CombineParallel_merge_keeps_operations isBarrierName c (relocated c) 1
           twoParallels [(0, 0, 2)]
           (parallelOp [] [storeTo 0 0; terminatorOp]) []
           success twoParallels_merged
           eq_refl eq_refl Hreach eq_refl eq_refl eq_refl).
Defined.

Lemma for_interchange_keeps_operations_witness :
  weight isBarrierName parallelInLoop_rewritten
  = isBarrierName omp_barrier + weight isBarrierName parallelInLoop.
Proof.
  exact (@for_interchange_keeps_operations isBarrierName
           (cursorAt parallelInLoop [(0, 0, 0); (0, 0, 0)])
           parallelInLoop_rewritten eq_refl).
Defined.

Lemma if_interchange_keeps_operations_witness :
  weight (fun _ => 1) parallelInElse_rewritten
  = weight (fun _ => 1) parallelInElse.
Proof.
  exact (@if_interchange_keeps_operations (fun _ => 1)
           (cursorAt parallelInElse [(0, 0, 0); (1, 0, 0)])
           parallelInElse_rewritten eq_refl).
Defined.

Lemma CombineParallel_stops_at_writer_witness :
  CombineParallel (cursorAt loadInFront [(0, 0, 3)])
  = Some (failure, loadInFront).
Proof.
  exact (@CombineParallel_stops_at_writer (cursorAt loadInFront [(0, 0, 3)])
           (storeTo 0 0)
           [parallelOp [] [storeTo 1 0; terminatorOp]; loadOp 0 1]
           loadInFront [(0, 0, 3)]
           eq_refl eq_refl eq_refl eq_refl).
Defined.

Lemma interchange_fires_only_on_sole_payload_witness :
  (exists l g above,
     layers (cursorAt parallelInLoop [(0, 0, 0); (0, 0, 0)]) = l :: g :: above
     /\ length (l_lefts l) + length (l_rights l) = 1
     /\ l_name l = scf_for /\ l_results l = [])
  /\ (exists l g above,
        layers (cursorAt parallelInElse [(0, 0, 0); (1, 0, 0)]) = l :: g :: above
        /\ length (l_lefts l) + length (l_rights l) = 1
        /\ l_name l = scf_if /\ l_results l = []).
Proof.
  split.
  - exact (proj1 (interchange_fires_only_on_sole_payload
                    (cursorAt parallelInLoop [(0, 0, 0); (0, 0, 0)])
                    parallelInLoop_rewritten) eq_refl).
  - exact (proj2 (interchange_fires_only_on_sole_payload
                    (cursorAt parallelInElse [(0, 0, 0); (1, 0, 0)])
                    parallelInElse_rewritten) eq_refl).
Defined.


Lemma relocate_touches_only_the_region_witness :
  relocate (cursorAt loadBehindStore [(0, 0, 2)])
  = Some (mkCursor
            (parallelOp [] [loadOp 0 3; storeTo 3 0; terminatorOp])
            [mkLayer [0] [storeTo 0 0]
                     [parallelOp [] [terminatorOp]; returnOp]
                     func_func false None [] [] [] [] [] []]).
Proof.
  pose (c := cursorAt loadBehindStore [(0, 0, 2)]).
  exact (@relocate_touches_only_the_region c (topLayer c) []
           (loadOp 0 1) [storeTo 0 0]
           (mkBlock [] [storeTo 1 0; terminatorOp])
           eq_refl eq_refl eq_refl eq_refl).
Defined.

Lemma CombineParallel_hoists_to_front_witness :
  CombineParallel (cursorAt loadInFront [(0, 0, 1)])
  = Some (success, loadInFront_hoisted).
Proof.
  pose (c := cursorAt loadInFront [(0, 0, 1)]).
  exact (@CombineParallel_hoists_to_front c c 0 loadInFront [(0, 0, 1)]
           (topLayer c) [] (loadOp 0 1)
           (mkBlock [] [storeTo 1 0; terminatorOp])
           eq_refl eq_refl (ScanReaches_here c) eq_refl eq_refl eq_refl
           eq_refl eq_refl).
Defined.


Lemma onlyReadsAndUsedInside_iff_unused_outside_witness :
  onlyReadsAndUsedInside (cursorAt loadBehindStore [(0, 0, 2)]) (loadOp 0 1)
  = true.
Proof.
  apply (proj2 (onlyReadsAndUsedInside_iff_unused_outside
                  (cursorAt loadBehindStore [(0, 0, 2)]) (loadOp 0 1))).
  split; [reflexivity|].
  intros v [<- | []] Hin. simpl in Hin.
  repeat (destruct Hin as [Hin | Hin]; [discriminate Hin|]).
  exact Hin.
Defined.

Lemma CombineParallel_keeps_what_is_used_outside_witness :
  CombineParallel (cursorAt loadUsedBehind [(0, 0, 1)])
  = Some (failure, loadUsedBehind).
Proof.
  refine (@CombineParallel_keeps_what_is_used_outside
            (cursorAt loadUsedBehind [(0, 0, 1)]) (loadOp 0 1) []
            loadUsedBehind [(0, 0, 1)] 1
            eq_refl eq_refl eq_refl (or_introl eq_refl) _).
  simpl. tauto.
Defined.
